(** * Window annotation tool (webapp/app.js)

    A shallow embedding of the annotation core of [webapp/app.js]: the
    per-window classification log with undo, the two window generators
    (manual and wall-clock), the coverage test, the CSV export gate and
    multi-file ingestion.

    Conventions of the embedding.
    - Times are whole seconds and are modelled by [Z]: [parseHMS] builds
      them with [parseInt], and file names carry whole-second clock times.
    - The global [state] object is passed explicitly ([State]); every handler
      returns the new state together with what it showed the user ([Ui]).
    - DOM reads are arguments: [vid] is the trimmed value of the [#videoId] input,
      [start]/[fin] are the [parseHMS] results, and a [windowMinutes] field
      is the result of [parseInt(..., 10)] with [None] standing for NaN.
    - [renderActive] and [saveToLocalStorage] only redraw and persist; they
      are left out, except that a status line or an alert is recorded. *)

From Equations Require Import Equations.
From stdpp Require Import base decidable list sorting strings pretty.
From stdpp Require gmap.
From Stdlib Require Import ZArith Lia.
From Stdlib Require Ascii String.

#[local] Open Scope Z_scope.

(** ** Data model *)

(** An element of [w.entries]: ['p'], ['m'], ['s'], or a slot that was never
    written ([Hole], read back as [undefined]); a hole appears when [undo]
    writes past the end of the array. *)
Inductive Entry : Set := Pending | Moving | Staying | Hole.

#[global] Instance Entry_eq_dec : EqDecision Entry.
Proof. solve_decision. Defined.

(** An element of [w.history]: [{op:'add'}], [{op:'remove'}] or
    [{op:'assign', index, from, to}]. *)
Inductive Op : Set :=
| OpAdd
| OpRemove
| OpAssign (index : nat) (from to : Entry).

(** A window object [{startSec, endSec, entries, notes, history}]. The most
    recent history entry is the last element, as in the array. *)
Record Window : Set := mkWindow {
  startSec : Z;
  endSec : Z;
  entries : list Entry;
  notes : string;
  history : list Op
}.

(** The object literal pushed by both generators. *)
Definition freshWindow (a b : Z) : Window := mkWindow a b [] EmptyString [].

Definition set_entries (es : list Entry) (w : Window) : Window :=
  mkWindow (startSec w) (endSec w) es (notes w) (history w).

Definition set_history (h : list Op) (w : Window) : Window :=
  mkWindow (startSec w) (endSec w) (entries w) (notes w) h.

(** One element of [state.coverage]. *)
Record CoverageInterval : Set := mkCov { startAbs : Z; endAbs : Z }.

(** The global [state]. [absOrigin = None] and [coverage = None] stand for
    [null]. *)
Record State : Set := mkState {
  videoId : string;
  windowSeconds : Z;
  windows : list Window;
  currentIndex : nat;
  absOrigin : option Z;
  coverage : option (list CoverageInterval)
}.

(** The [alert(...)] calls of the modelled handlers, by what they report. *)
Inductive Alert : Set :=
| NoPendingEntry                (* removePerson, assignFromPending *)
| NoEntryOfKind (k : Entry)     (* revertToPending *)
| MissingVideoId                (* generateWindows, buildWindowsFromAbsRange *)
| InvalidRange                  (* generateWindows: not (end > start) *)
| PendingRemain                 (* exportCSV, exportDetailCSV *)
| BadFileName (name : string)   (* multi-file ingestion *)
| NoWindowsYet.                 (* ensureWindowsOrGenerate *)

(** The [setStatus(...)] calls of the modelled handlers. *)
Inductive Notice : Set :=
| NoOnGridWindow                          (* level 'warn' *)
| MultiLoaded (n : nat) (minStart maxEnd : Z).  (* level 'info' *)

(** What a handler showed or produced, in call order. *)
Inductive Ui : Set :=
| UiAlert (a : Alert)
| UiStatus (n : Notice)
| UiDownload (filename content : string).

(** ** Classification log of one window *)

(** [for (let i = n - 1; i >= 0; i--) if (l[i] === k) ...]: the index at
    which the downward scan stops. *)
Fixpoint scanDown (k : Entry) (l : list Entry) (n : nat) : option nat :=
  match n with
  | O => None
  | S i => if decide (l !! i = Some k) then Some i else scanDown k l i
  end.

Definition findLast (k : Entry) (l : list Entry) : option nat :=
  scanDown k l (length l).

(** [l[i] = v] on a JavaScript array: in range it overwrites, past the end
    it extends the array, leaving holes in between. *)
Definition arraySet (l : list Entry) (i : nat) (v : Entry) : list Entry :=
  if decide (i < length l)%nat then <[i:=v]> l
  else l ++ replicate (i - length l) Hole ++ [v].

(** [a.pop()]: the array without its last element, and that element. *)
Definition pop {A : Type} (l : list A) : option (list A * A) :=
  match rev l with
  | [] => None
  | x :: r => Some (rev r, x)
  end.

(** [e => e === k] counted over the entries, as in
    [w.entries.filter(...).length]. *)
Definition countKind (k : Entry) (l : list Entry) : nat :=
  length (filter (fun e => e = k) l).

(** The handlers below are given as functions of
    [w = state.windows[state.currentIndex]]; [None] means no alert. *)

Definition addPerson (w : Window) : Window * option Alert :=
  (set_history (history w ++ [OpAdd]) (set_entries (entries w ++ [Pending]) w), None).

Definition removePerson (w : Window) : Window * option Alert :=
  match findLast Pending (entries w) with
  | Some i =>
      (set_history (history w ++ [OpRemove]) (set_entries (delete i (entries w)) w), None)
  | None => (w, Some NoPendingEntry)
  end.

Definition assignFromPending (toKind : Entry) (w : Window) : Window * option Alert :=
  match findLast Pending (entries w) with
  | Some i =>
      (set_history (history w ++ [OpAssign i Pending toKind])
         (set_entries (<[i:=toKind]> (entries w)) w), None)
  | None => (w, Some NoPendingEntry)
  end.

Definition revertToPending (fromKind : Entry) (w : Window) : Window * option Alert :=
  match findLast fromKind (entries w) with
  | Some i =>
      (set_history (history w ++ [OpAssign i fromKind Pending])
         (set_entries (<[i:=Pending]> (entries w)) w), None)
  | None => (w, Some (NoEntryOfKind fromKind))
  end.

(** [undo]: pops the log; an empty log returns at once, with no alert. *)
Definition undo (w : Window) : Window * option Alert :=
  match pop (history w) with
  | None => (w, None)
  | Some (h, last) =>
      let es :=
        match last with
        | OpAdd =>
            match findLast Pending (entries w) with
            | Some i => delete i (entries w)
            | None => entries w
            end
        | OpRemove => entries w ++ [Pending]
        | OpAssign index from _ => arraySet (entries w) index from
        end in
      (set_history h (set_entries es w), None)
  end.

(** [clearCurrent] after the user confirmed: entries and notes are reset,
    the history is kept. *)
Definition clearCurrent (w : Window) : Window :=
  mkWindow (startSec w) (endSec w) [] EmptyString (history w).

(** ** Time grid and coverage *)

(** [Math.ceil(a / b)] on whole numbers, [b > 0]. *)
Definition ceilDiv (a b : Z) : Z := - ((- a) / b).

(** [alignDown = (ts) => Math.floor(ts / step) * step] and
    [alignUp = (ts) => Math.ceil(ts / step) * step], closed over [step] in
    the source. *)
Definition alignDown (step ts : Z) : Z := ts / step * step.
Definition alignUp (step ts : Z) : Z := ceilDiv ts step * step.

(** [isCovered = (a, b) => cov.some((c) => c.startAbs <= a && b <= c.endAbs)]. *)
Definition isCovered (cov : list CoverageInterval) (a b : Z) : bool :=
  existsb (fun c => (startAbs c <=? a) && (b <=? endAbs c)) cov.

(** [Array.isArray(state.coverage) ? state.coverage : [{ startAbs, endAbs }]]. *)
Definition coverageOr (stored : option (list CoverageInterval)) (sAbs eAbs : Z)
  : list CoverageInterval :=
  match stored with
  | Some cov => cov
  | None => [mkCov sAbs eAbs]
  end.

(** [Math.max(1, parseInt(field, 10) || 5)]: NaN and 0 fall back to 5. *)
Definition minutesOf (field : option Z) : Z :=
  Z.max 1 (match field with
           | Some n => if decide (n = 0) then 5 else n
           | None => 5
           end).

Lemma minutesOf_step_pos (field : option Z) : 0 < minutesOf field * 60.
Proof. unfold minutesOf. lia. Qed.

Lemma max1_step_pos (minutes : Z) : 0 < Z.max 1 minutes * 60.
Proof. lia. Qed.

(** ** The two window loops

    Both loops advance [t] by [step]; they terminate because [step] is
    positive, which both callers guarantee ([minutesOf_step_pos],
    [max1_step_pos]). *)

Section Loops.
Context (step : Z) (Hstep : 0 < step).

(** [for (let t = start; t < end; t += step)
       push {startSec: t, endSec: Math.min(t + step, end), ...}]. *)
Equations? relLoop (fin t : Z) : list Window by wf (Z.to_nat (fin - t)) lt :=
  relLoop fin t with decide (t < fin) := {
    | left _ := freshWindow t (Z.min (t + step) fin) :: relLoop fin (t + step);
    | right _ := [] }.
Proof. lia. Qed.

(** [for (let t = alignedStart; t + step <= alignedEnd; t += step)
       { if (!isCovered(t, t + step)) continue;
         push {startSec: t - startAbs, endSec: t + step - startAbs, ...} }]. *)
Equations? gridLoop (cov : list CoverageInterval) (sAbs alignedEnd t : Z)
  : list Window by wf (Z.to_nat (alignedEnd - t)) lt :=
  gridLoop cov sAbs alignedEnd t with decide (t + step <= alignedEnd) := {
    | left _ :=
        if isCovered cov t (t + step)
        then freshWindow (t - sAbs) (t + step - sAbs)
               :: gridLoop cov sAbs alignedEnd (t + step)
        else gridLoop cov sAbs alignedEnd (t + step);
    | right _ := [] }.
Proof. all: lia. Qed.

End Loops.

(** ** Window generation *)

(** [generateWindows]: manual mode. [state.coverage] is not assigned. *)
Definition generateWindows (vid : string) (start fin : Z) (field : option Z)
    (st : State) : State * list Ui :=
  let minutes := minutesOf field in
  if decide (vid = EmptyString) then (st, [UiAlert MissingVideoId])
  else if decide (start < fin) then
    (mkState vid (minutes * 60)
       (relLoop (minutes * 60) (minutesOf_step_pos field) fin start)
       0%nat None (coverage st), [])
  else (st, [UiAlert InvalidRange]).

(** [buildWindowsFromAbsRange(startAbs, endAbs, minutes)]: wall-clock mode.
    The third component is the returned boolean. *)
Definition buildWindowsFromAbsRange (vid : string) (sAbs eAbs minutes : Z)
    (st : State) : State * list Ui * bool :=
  if decide (vid = EmptyString) then (st, [UiAlert MissingVideoId], false)
  else
    let step := Z.max 1 minutes * 60 in
    let alignedStart := alignUp step sAbs in
    let alignedEnd := alignDown step eAbs in
    let cov := coverageOr (coverage st) sAbs eAbs in
    let ws := gridLoop step (max1_step_pos minutes) cov sAbs alignedEnd alignedStart in
    (mkState vid step ws 0%nat (Some sAbs) (coverage st),
     if decide (length ws = 0%nat) then [UiStatus NoOnGridWindow] else [],
     true).

(** ** CSV export *)

Definition dquote : Ascii.ascii := Ascii.ascii_of_nat 34.
Definition comma : Ascii.ascii := Ascii.ascii_of_nat 44.
Definition newline : Ascii.ascii := Ascii.ascii_of_nat 10.
Definition str (c : Ascii.ascii) : string := String c EmptyString.

(** [s.padStart(n, '0')]. *)
Definition padStart0 (n : nat) (s : string) : string :=
  String.string_of_list_ascii (replicate (n - String.length s) (Ascii.ascii_of_nat 48)) +:+ s.

(** [pad(n) = n.toString().padStart(2, '0')], on the whole numbers whose
    [toString] is their plain decimal text: the code's numbers are
    doubles, exact up to 2^53 in size, and [toString] turns to the
    exponent form from 1e21 on. *)
Definition pad (n : Z) : string := padStart0 2 (pretty n).

(** [secToHMS]. *)
Definition secToHMS (sec : Z) : string :=
  let s := Z.max 0 sec in
  let h := s / 3600 in
  let m := (s mod 3600) / 60 in
  let r := s mod 60 in
  if decide (0 < h) then pad h +:+ ":" +:+ pad m +:+ ":" +:+ pad r
  else pad m +:+ ":" +:+ pad r.

(** [s.replace] of every double quote by two of them. *)
Fixpoint doubleQuotes (s : string) : string :=
  match s with
  | EmptyString => EmptyString
  | String c r =>
      if decide (c = dquote) then String dquote (String dquote (doubleQuotes r))
      else String c (doubleQuotes r)
  end.

(** [csvEscape]: a field holding a quote, a comma or a line feed is quoted. *)
Definition csvEscape (s : string) : string :=
  if existsb (fun c => bool_decide (c = dquote \/ c = comma \/ c = newline))
       (String.list_ascii_of_string s)
  then str dquote +:+ doubleQuotes s +:+ str dquote
  else s.

Definition csvLine (fields : list string) : string :=
  String.concat (str comma) fields.

(** [new Blob([rows.join(LF) + LF])]. *)
Definition blobText (rows : list string) : string :=
  String.concat (str newline) rows +:+ str newline.

(** [state.videoId || 'annotations']. *)
Definition fileStem (st : State) : string :=
  if decide (videoId st = EmptyString) then "annotations" else videoId st.

Section CsvExport.
(** [absToHMS] renders an epoch second as the local clock time through
    [Date]; the browser's calendar is a parameter here. *)
Context (absToHMS : Z -> string).

(** [state.absOrigin != null ? absToHMS(state.absOrigin + t) : secToHMS(t)]. *)
Definition clockText (st : State) (t : Z) : string :=
  match absOrigin st with
  | Some origin => absToHMS (origin + t)
  | None => secToHMS t
  end.

Definition summaryHeader : string :=
  csvLine ["video_id"; "window_start"; "window_end"; "total_unique";
           "moving_count"; "staying_count"; "notes"].

Definition summaryRow (st : State) (w : Window) : string :=
  let moving := countKind Moving (entries w) in
  let staying := countKind Staying (entries w) in
  csvLine (csvEscape <$>
    [videoId st; clockText st (startSec w); clockText st (endSec w);
     pretty (moving + staying)%nat; pretty moving; pretty staying; notes w]).

(** The [for (const w of state.windows)] loop of [exportCSV]; [None] is the
    [alert(...); return] taken at the first window that still holds a
    pending entry. *)
Fixpoint summaryRows (st : State) (ws : list Window) (rows : list string)
  : option (list string) :=
  match ws with
  | [] => Some rows
  | w :: ws' =>
      if decide (0 < countKind Pending (entries w))%nat then None
      else summaryRows st ws' (rows ++ [summaryRow st w])
  end.

Definition exportCSV (st : State) : list Ui :=
  match summaryRows st (windows st) [summaryHeader] with
  | None => [UiAlert PendingRemain]
  | Some rows => [UiDownload (fileStem st +:+ ".csv") (blobText rows)]
  end.

Definition detailHeader : string :=
  csvLine ["video_id"; "window_start"; "person_local_id"; "visible_sec";
           "behavior"; "remarks"].

Definition detailRow (st : State) (w : Window) (idx : nat) (e : Entry) : string :=
  csvLine (csvEscape <$>
    [videoId st; clockText st (startSec w); "p" +:+ padStart0 3 (pretty idx);
     EmptyString; (if decide (e = Moving) then "moving" else "staying");
     EmptyString]).

(** [w.entries.forEach(...)] with its counter [idx]. *)
Fixpoint detailEntries (st : State) (w : Window) (es : list Entry) (idx : nat)
    (rows : list string) : list string :=
  match es with
  | [] => rows
  | e :: es' =>
      if decide (e = Moving \/ e = Staying)
      then detailEntries st w es' (S idx) (rows ++ [detailRow st w idx e])
      else detailEntries st w es' idx rows
  end.

Fixpoint detailRows (st : State) (ws : list Window) (rows : list string)
  : option (list string) :=
  match ws with
  | [] => Some rows
  | w :: ws' =>
      if decide (0 < countKind Pending (entries w))%nat then None
      else detailRows st ws' (detailEntries st w (entries w) 1%nat rows)
  end.

Definition exportDetailCSV (st : State) : list Ui :=
  match detailRows st (windows st) [detailHeader] with
  | None => [UiAlert PendingRemain]
  | Some rows => [UiDownload (fileStem st +:+ "_detail.csv") (blobText rows)]
  end.

End CsvExport.

(** ** Multi-file ingestion *)

(** What [parseP(name)] returns for a conforming name. *)
Record ParsedName : Set := mkParsed {
  pStartAbs : Z;
  pEndAbs : Z;
  startStr : string;
  endStr : string
}.

(** An element of [metas]: [{ file: f, info }], the file by its name. *)
Record Meta : Set := mkMeta { file : string; info : ParsedName }.

(** The form fields the handler writes. *)
Record Form : Set := mkForm {
  videoIdField : string;
  startTimeField : string;
  endTimeField : string
}.

(** The scan behind [/\.[^.]+$/], on the reversed name: the characters
    after the last dot, and the reversed text before that dot. *)
Fixpoint splitAtDot (r : list Ascii.ascii) : option (list Ascii.ascii * list Ascii.ascii) :=
  match r with
  | [] => None
  | c :: r' =>
      if decide (c = Ascii.ascii_of_nat 46) then Some ([], r')
      else match splitAtDot r' with
           | Some (ext, base) => Some (c :: ext, base)
           | None => None
           end
  end.

(** [name.replace(/\.[^.]+$/, EMPTY)]: a final, non-empty extension is cut
    off together with its dot. *)
Definition stripExt (name : string) : string :=
  match splitAtDot (rev (String.list_ascii_of_string name)) with
  | Some (_ :: _, base) => String.string_of_list_ascii (rev base)
  | _ => name
  end.

(** [metas.sort((a, b) => a.info.startAbs - b.info.startAbs)]: the sort is
    stable, so it is the insertion sort that keeps equal keys in order. *)
Fixpoint insertMeta (m : Meta) (sorted : list Meta) : list Meta :=
  match sorted with
  | [] => [m]
  | h :: t =>
      if decide (pStartAbs (info m) < pStartAbs (info h)) then m :: h :: t
      else h :: insertMeta m t
  end.

Definition sortMetas (metas : list Meta) : list Meta :=
  fold_left (fun acc m => insertMeta m acc) metas [].

(** [m => ({ startAbs: m.info.startAbs, endAbs: m.info.endAbs })]. *)
Definition metaInterval (m : Meta) : CoverageInterval :=
  mkCov (pStartAbs (info m)) (pEndAbs (info m)).

Section Ingest.
(** [parseP] is called by the handler and defined outside [app.js]; [trim]
    is [String.prototype.trim]. *)
Context (parseP : string -> option ParsedName) (trim : string -> string).

(** The parsing loop: [inr name] is the [alert(...); return] at the first
    name that [parseP] rejects. *)
Fixpoint collectMetas (files : list string) (metas : list Meta)
  : list Meta + string :=
  match files with
  | [] => inl metas
  | f :: files' =>
      match parseP f with
      | None => inr f
      | Some i => collectMetas files' (metas ++ [mkMeta f i])
      end
  end.

(** The body of the [if (files.length > 1) { ... }] branch of the file
    input's change handler; the test itself is in [fiChange], which is the
    handler and reaches this body only with more than one file.
    [confirmOverwrite] is the user's answer to the overwrite
    dialog, asked only when windows exist; [field] is the parsed
    [#windowMinutes] input. *)
Definition fiChangeMulti (files : list string) (field : option Z)
    (confirmOverwrite : bool) (form : Form) (st : State)
  : State * Form * list Ui :=
  match collectMetas files [] with
  | inr name => (st, form, [UiAlert (BadFileName name)])
  | inl metas0 =>
      let metas := sortMetas metas0 in
      match head metas, last metas with
      | Some first, Some final =>
          let minStart := pStartAbs (info first) in
          let maxEnd := pEndAbs (info final) in
          let vidValue :=
            if decide (videoIdField form = EmptyString)
            then stripExt (file first) +:+ "_set"
            else videoIdField form in
          let form' := mkForm vidValue (startStr (info first)) (endStr (info final)) in
          let shown := [UiStatus (MultiLoaded (length files) minStart maxEnd)] in
          if bool_decide (windows st <> []) && negb confirmOverwrite
          then (st, form', shown)
          else
            let minutes := minutesOf field in
            let cov := metaInterval <$> metas in
            let st1 := mkState (videoId st) (windowSeconds st) (windows st)
                         (currentIndex st) (absOrigin st) (Some cov) in
            let '(st2, ui, _) :=
              buildWindowsFromAbsRange (trim vidValue) minStart maxEnd minutes st1 in
            (st2, form', shown ++ ui)
      | _, _ => (st, form, [])
      end
  end.

End Ingest.

(** ** Reviewer commands

    [bindEvents] wires the counting buttons to the handlers: [#addPersonBtn]
    to [addPerson], [#subPersonBtn] to [removePerson], [#addMovingBtn] and
    [#addStayingBtn] to [assignFromPending('m')] and [assignFromPending('s')],
    [#subMovingBtn] and [#subStayingBtn] to [revertToPending('m')] and
    [revertToPending('s')]. *)

Inductive Kind : Set := KMoving | KStaying.

Definition kindEntry (k : Kind) : Entry :=
  match k with KMoving => Moving | KStaying => Staying end.

Inductive Command : Set :=
| AddPending
| RemovePending
| Classify (target : Kind)
| Declassify (source : Kind).

Definition run (op : Command) (w : Window) : Window * option Alert :=
  match op with
  | AddPending => addPerson w
  | RemovePending => removePerson w
  | Classify k => assignFromPending (kindEntry k) w
  | Declassify k => revertToPending (kindEntry k) w
  end.

(** ** Handlers on the session

    Every counting handler starts with [if (!ensureWindowsOrGenerate())
    return;] and [const w = state.windows[state.currentIndex];], and then
    runs its body on [w], which is mutated in place. *)

(** What [ensureWindowsOrGenerate] and [generateWindows] read from the
    form: the trimmed [#videoId], [parseHMS] of [#startTime] and of
    [#endTime], and [parseInt] of [#windowMinutes]. *)
Record Inputs : Set := mkInputs {
  inVid : string;
  inStart : Z;
  inEnd : Z;
  inMinutes : option Z
}.

Definition ensureWindowsOrGenerate (inp : Inputs) (st : State)
  : State * list Ui * bool :=
  if decide (windows st <> []) then (st, [], true)
  else if decide (inVid inp <> EmptyString /\ inStart inp < inEnd inp) then
    let '(st', ui) :=
      generateWindows (inVid inp) (inStart inp) (inEnd inp) (inMinutes inp) st in
    (st', ui, true)
  else (st, [UiAlert NoWindowsYet], false).

Definition set_windows (ws : list Window) (st : State) : State :=
  mkState (videoId st) (windowSeconds st) ws (currentIndex st) (absOrigin st)
    (coverage st).

Definition alertUi (a : option Alert) : list Ui :=
  match a with
  | Some a => [UiAlert a]
  | None => []
  end.

(** The body run on [state.windows[state.currentIndex]]. With the index
    outside the list [w] is [undefined] and the body throws at its first
    property access, before any assignment. *)
Definition onCurrentWindow (body : Window -> Window * option Alert) (st : State)
  : State * list Ui :=
  match windows st !! currentIndex st with
  | Some w =>
      let '(w', a) := body w in
      (set_windows (<[currentIndex st := w']> (windows st)) st, alertUi a)
  | None => (st, [])
  end.

(** A counting button: guard, then the body on the current window. *)
Definition command (op : Command) (inp : Inputs) (st : State) : State * list Ui :=
  let '(st1, ui, ok) := ensureWindowsOrGenerate inp st in
  if ok then
    let '(st2, ui2) := onCurrentWindow (run op) st1 in (st2, ui ++ ui2)
  else (st1, ui).

(** [#undoBtn]: [if (!state.windows.length) return;], then the body. *)
Definition undoCurrent (st : State) : State * list Ui :=
  if decide (windows st = []) then (st, []) else onCurrentWindow undo st.

(** ** Sequences of clicks *)

(** Counting buttons pressed one after the other on the current window;
    what each press showed is dropped. *)
Definition runAll (ops : list Command) (w : Window) : Window :=
  fold_left (fun w op => (run op w).1) ops w.

(** [#undoBtn] pressed [n] times. *)
Definition undoTimes (n : nat) (w : Window) : Window :=
  Nat.iter n (fun w => (undo w).1) w.

(** ** Navigation *)

Definition set_currentIndex (i : nat) (st : State) : State :=
  mkState (videoId st) (windowSeconds st) (windows st) i (absOrigin st)
    (coverage st).

(** What [renderActive] does to the state: with windows present,
    [state.currentIndex = Math.max(0, Math.min(state.currentIndex,
    state.windows.length - 1))]; with none it only redraws. *)
Definition renderActive (st : State) : State :=
  if decide (windows st = []) then st
  else set_currentIndex (Nat.min (currentIndex st) (length (windows st) - 1)) st.

(** [nextWindow]: [Math.min(state.windows.length - 1, state.currentIndex + 1)],
    then [renderActive]. *)
Definition nextWindow (st : State) : State :=
  if decide (windows st = []) then st
  else renderActive
         (set_currentIndex
            (Nat.min (length (windows st) - 1) (currentIndex st + 1)) st).

(** [prevWindow]: [Math.max(0, state.currentIndex - 1)], then
    [renderActive]. *)
Definition prevWindow (st : State) : State :=
  if decide (windows st = []) then st
  else renderActive (set_currentIndex (currentIndex st - 1) st).

(** ** Single-file ingestion and incremental addition *)

Definition set_coverage (cov : option (list CoverageInterval)) (st : State) : State :=
  mkState (videoId st) (windowSeconds st) (windows st) (currentIndex st)
    (absOrigin st) cov.

(** The [setStatus(...)] calls of the single-file branch and of the
    add-files handler. [OnGridOnly] carries the head and the tail slot its
    message names, when it names them. *)
Inductive FileNotice : Set :=
| FileLoaded (name : string)                  (* level 'info' *)
| NameTimesRead                               (* level 'info' *)
| OnGridOnly (head tail : option (Z * Z))     (* level 'warn' *)
| GeneratedFromName                           (* level 'info' *)
| FilesAdded (n : nat).                       (* level 'info' *)

Inductive Shown : Set :=
| ShownUi (u : Ui)
| ShownFile (n : FileNotice).

Section SingleFile.
Context (parseP : string -> option ParsedName) (trim : string -> string).

(** The single-file part of the file input's change handler, up to the
    point where it returns. With a name that [parseP] rejects the handler
    only writes the form and registers the metadata, probe and transcode
    callbacks, which run later. *)
Definition fiChangeSingle (name : string) (field : option Z)
    (confirmOverwrite : bool) (form : Form) (st : State)
  : State * Form * list Shown :=
  let base := stripExt name in
  let shown0 := [ShownFile (FileLoaded name)] in
  match parseP name with
  | Some pm =>
      let form' := mkForm base (startStr pm) (endStr pm) in
      let shown1 := shown0 ++ [ShownFile NameTimesRead] in
      if bool_decide (windows st <> []) && negb confirmOverwrite
      then (st, form', shown1)
      else
        let minutes := minutesOf field in
        let st1 := set_coverage (Some [mkCov (pStartAbs pm) (pEndAbs pm)]) st in
        let '(st2, ui, _) :=
          buildWindowsFromAbsRange (trim base) (pStartAbs pm) (pEndAbs pm)
            minutes st1 in
        let step := minutes * 60 in
        let prevStart := alignDown step (pStartAbs pm) in
        let nextEnd := alignUp step (pEndAbs pm) in
        let headMissing := bool_decide (prevStart < pStartAbs pm) in
        let tailMissing := bool_decide (pEndAbs pm < nextEnd) in
        (st2, form',
         shown1 ++ (ShownUi <$> ui) ++
         [ShownFile
            (if headMissing || tailMissing
             then OnGridOnly
                    (if headMissing then Some (prevStart, prevStart + step) else None)
                    (if tailMissing then Some (nextEnd - step, nextEnd) else None)
             else GeneratedFromName)])
  | None => (st, mkForm base "00:00:00" (endTimeField form), shown0)
  end.

End SingleFile.

Section FileInput.
Context (parseP : string -> option ParsedName) (trim : string -> string).

(** The change handler of [#videoFileInput], up to the point where it
    returns: [if (!files.length) return], the multi-file branch
    [if (files.length > 1)], and the single-file part on [files[0]]. *)
Definition fiChange (files : list string) (field : option Z)
    (confirmOverwrite : bool) (form : Form) (st : State)
  : State * Form * list Shown :=
  match files with
  | [] => (st, form, [])
  | name :: _ =>
      if decide (1 < length files)%nat
      then
        let '(st', form', ui) :=
          fiChangeMulti parseP trim files field confirmOverwrite form st in
        (st', form', ShownUi <$> ui)
      else fiChangeSingle parseP trim name field confirmOverwrite form st
  end.

End FileInput.

Section Incremental.
(** [recomputeFromCoverage] is called by the add-files handler and defined
    outside [app.js]. *)
Context (parseP : string -> option ParsedName)
        (recomputeFromCoverage : Z -> State -> State * list Ui).

(** The parsing loop of the add-files handler. *)
Fixpoint collectIntervals (files : list string) (newCov : list CoverageInterval)
  : list CoverageInterval + string :=
  match files with
  | [] => inl newCov
  | f :: files' =>
      match parseP f with
      | None => inr f
      | Some i => collectIntervals files' (newCov ++ [mkCov (pStartAbs i) (pEndAbs i)])
      end
  end.

(** The change handler of [#videoFileAddInput]. *)
Definition faiChange (files : list string) (field : option Z) (st : State)
  : State * list Shown :=
  if decide (files = []) then (st, [])
  else
    match collectIntervals files [] with
    | inr name => (st, [ShownUi (UiAlert (BadFileName name))])
    | inl newCov =>
        let old := match coverage st with Some cov => cov | None => [] end in
        let st1 := set_coverage (Some (old ++ newCov)) st in
        let '(st2, ui) := recomputeFromCoverage (minutesOf field) st1 in
        (st2, (ShownUi <$> ui) ++ [ShownFile (FilesAdded (length files))])
    end.

End Incremental.

(** ** Reading times

    Text is the sequence of its UTF-8 bytes. The white space [parseInt]
    skips is the language's WhiteSpace and LineTerminator: U+0009 to
    U+000D and U+0020 in one byte, U+00A0 in two, U+1680, U+2000 to
    U+200A, U+2028, U+2029, U+202F, U+205F, U+3000 and U+FEFF in three.
    The numbers read are exact, as the code's are up to 2^53. *)

Definition isSpace (c : Ascii.ascii) : bool :=
  let n := Ascii.nat_of_ascii c in
  bool_decide (n = 32 \/ (9 <= n /\ n <= 13))%nat.

Definition isSpace2 (c1 c2 : Ascii.ascii) : bool :=
  let a := Ascii.nat_of_ascii c1 in
  let b := Ascii.nat_of_ascii c2 in
  bool_decide (a = 194 /\ b = 160)%nat.

Definition isSpace3 (c1 c2 c3 : Ascii.ascii) : bool :=
  let a := Ascii.nat_of_ascii c1 in
  let b := Ascii.nat_of_ascii c2 in
  let c := Ascii.nat_of_ascii c3 in
  bool_decide
    ((a = 225 /\ b = 154 /\ c = 128)
     \/ (a = 226 /\ b = 128
         /\ ((128 <= c /\ c <= 138) \/ c = 168 \/ c = 169 \/ c = 175))
     \/ (a = 226 /\ b = 129 /\ c = 159)
     \/ (a = 227 /\ b = 128 /\ c = 128)
     \/ (a = 239 /\ b = 187 /\ c = 191))%nat.

Fixpoint skipSpaces (s : string) : string :=
  match s with
  | String c1 r1 =>
      if isSpace c1 then skipSpaces r1
      else
        match r1 with
        | String c2 r2 =>
            if isSpace2 c1 c2 then skipSpaces r2
            else
              match r2 with
              | String c3 r3 =>
                  if isSpace3 c1 c2 c3 then skipSpaces r3 else s
              | EmptyString => s
              end
        | EmptyString => s
        end
  | EmptyString => s
  end.

(** The value of a decimal digit. *)
Definition digitValue (c : Ascii.ascii) : option Z :=
  let n := Ascii.nat_of_ascii c in
  if bool_decide (48 <= n /\ n <= 57)%nat then Some (Z.of_nat n - 48) else None.

(** The digits [parseInt] reads, up to the first character that is no
    digit; [acc] is [None] until a digit was read. *)
Fixpoint digitsFrom (acc : option Z) (s : string) : option Z :=
  match s with
  | EmptyString => acc
  | String c r =>
      match digitValue c with
      | Some d => digitsFrom (Some (10 * default 0 acc + d)) r
      | None => acc
      end
  end.

(** [parseInt(s, 10)]: white space, an optional sign, digits; [None] is
    NaN, the result when no digit follows. *)
Definition parseInt10 (s : string) : option Z :=
  match skipSpaces s with
  | String c r =>
      if decide (c = Ascii.ascii_of_nat 45) then Z.opp <$> digitsFrom None r
      else if decide (c = Ascii.ascii_of_nat 43) then digitsFrom None r
      else digitsFrom None (String c r)
  | EmptyString => None
  end.

(** [s.split(sep)] for a one-character separator. *)
Fixpoint splitOn (sep : Ascii.ascii) (s : string) : list string :=
  match s with
  | EmptyString => [EmptyString]
  | String c r =>
      if decide (c = sep) then EmptyString :: splitOn sep r
      else match splitOn sep r with
           | p :: ps => String c p :: ps
           | [] => [String c EmptyString]
           end
  end.

Definition colon : Ascii.ascii := Ascii.ascii_of_nat 58.

(** [parseHMS]. *)
Definition parseHMS (text : string) : Z :=
  if decide (text = EmptyString) then 0
  else
    let parts := parseInt10 <$> splitOn colon text in
    if existsb (fun v => bool_decide (v = None)) parts then 0
    else match parts with
         | [Some h; Some m; Some s] => h * 3600 + m * 60 + s
         | [Some m; Some s] => m * 60 + s
         | [Some s] => s
         | _ => 0
         end.

(** ** Persistence *)

(** The object [saveToLocalStorage] hands to [JSON.stringify]; the same
    fields make the payload of the server save. [state.coverage] is not
    among them. *)
Record Snapshot : Set := mkSnapshot {
  snVideoId : string;
  snWindowSeconds : Z;
  snWindows : list Window;
  snCurrentIndex : nat;
  snAbsOrigin : option Z
}.

Definition snapshotOf (st : State) : Snapshot :=
  mkSnapshot (videoId st) (windowSeconds st) (windows st) (currentIndex st)
    (absOrigin st).

(** A parsed JSON value as the loading handlers read it: [dVideoId] is
    empty and [dWindowSeconds], [dCurrentIndex] are 0 when the field is
    falsy or missing, [dWindows] is [None] when [data.windows] is no array,
    [dAbsOrigin] is [None] when [data.absOrigin] is no number. An array
    slot holding [null] reads like a hole. The record covers the values
    whose [windows], when an array, holds window objects and whose
    [currentIndex] is a natural number, as in every text the application
    writes. *)
Record Data : Set := mkData {
  dVideoId : string;
  dWindowSeconds : Z;
  dWindows : option (list Window);
  dCurrentIndex : nat;
  dAbsOrigin : option Z
}.

(** What parsing the text of a snapshot gives. *)
Definition dataOf (sn : Snapshot) : Data :=
  mkData (snVideoId sn) (snWindowSeconds sn) (Some (snWindows sn))
    (snCurrentIndex sn) (snAbsOrigin sn).

(** [storageKey]. *)
Definition storageKey (st : State) : string := "annot:" +:+ videoId st.

Section Persistence.
(** [JSON.stringify] on a snapshot and [JSON.parse], with [None] for a text
    that makes [JSON.parse] throw or yields [null]. *)
Context (stringify : Snapshot -> string) (parseJSON : string -> option Data).

(** [saveToLocalStorage], on the storage as a map from keys to texts. *)
Definition saveToLocalStorage (st : State) (store : gmap.gmap string string)
  : gmap.gmap string string :=
  if decide (videoId st = EmptyString) then store
  else <[storageKey st := stringify (snapshotOf st)]> store.

(** [loadFromLocalStorage]; the boolean is its result. *)
Definition loadFromLocalStorage (st : State) (store : gmap.gmap string string)
  : State * bool :=
  if decide (videoId st = EmptyString) then (st, false)
  else
    match store !! storageKey st with
    | None => (st, false)
    | Some raw =>
        if decide (raw = EmptyString) then (st, false)
        else
          match parseJSON raw with
          | None => (st, false)
          | Some data =>
              (renderActive
                 (mkState
                    (if decide (dVideoId data = EmptyString) then videoId st
                     else dVideoId data)
                    (if decide (dWindowSeconds data = 0) then windowSeconds st
                     else dWindowSeconds data)
                    (default [] (dWindows data))
                    (dCurrentIndex data)
                    (dAbsOrigin data)
                    (coverage st)),
               true)
          end
    end.

(** The change handler of [#importJsonInput] on the text of the chosen
    file; the boolean tells the two alerts apart ([true]: loaded). *)
Definition importJson (text : string) (st : State) : State * bool :=
  match parseJSON text with
  | None => (st, false)
  | Some data =>
      match dWindows data with
      | None => (st, false)
      | Some ws =>
          (renderActive
             (mkState (dVideoId data)
                (if decide (dWindowSeconds data = 0) then 300
                 else dWindowSeconds data)
                ws (dCurrentIndex data) (dAbsOrigin data) (coverage st)),
           true)
      end
  end.

End Persistence.

(** * Vocabulary of the statements *)

(** The slots the grid loop visits: [t], [t + step], ... for as long as
    the slot ends at or before [alignedEnd]. *)
Definition gridStarts (step t alignedEnd : Z) : list Z :=
  (fun k => t + k * step) <$> seqZ 0 ((alignedEnd - t) / step).

(** Windows in ascending order that do not overlap. *)
Definition ascending (ws : list Window) : Prop :=
  forall i j wi wj, (i < j)%nat ->
    ws !! i = Some wi -> ws !! j = Some wj -> endSec wi <= startSec wj.

(** The on-grid slots of a requested range. *)
Definition onGrid (step sAbs eAbs a : Z) : Prop :=
  (step | a) /\ alignUp step sAbs <= a /\ a + step <= alignDown step eAbs.

(** The starts the manual loop visits: [t], [t + step], ... while below
    [fin]. *)
Definition relStarts (step t fin : Z) : list Z :=
  (fun k => t + k * step) <$> seqZ 0 (ceilDiv (fin - t) step).

(** [Tiling a c ws]: the windows of [ws] are non-empty, start at [a], each
    starts where the one before it ends, and the last ends at [c]. *)
Inductive Tiling : Z -> Z -> list Window -> Prop :=
| Tiling_nil a : Tiling a a []
| Tiling_cons w c ws :
    startSec w < endSec w -> Tiling (endSec w) c ws ->
    Tiling (startSec w) c (w :: ws).

(** The order of the comparator [(a, b) => a.info.startAbs - b.info.startAbs]. *)
Definition byStart (a b : Meta) : Prop :=
  pStartAbs (info a) <= pStartAbs (info b).

(** What [parseP] yields for the two names of the example in a browser
    whose local time is UTC. *)
Definition fixtureParseP (name : string) : option ParsedName :=
  if decide (name = "P240101_090000_100000.mp4")
  then Some (mkParsed 1704099600 1704103200 "09:00:00" "10:00:00")
  else if decide (name = "P240101_091000_092000.mp4")
  then Some (mkParsed 1704100200 1704100800 "09:10:00" "09:20:00")
  else None.

(** A command that raised no alert and that is not a [RemovePending] taking
    a pending entry from before the end of the list. *)
Definition undoExact (op : Command) (w : Window) : Prop :=
  (run op w).2 = None
  /\ match op with
     | RemovePending => last (entries w) = Some Pending
     | _ => True
     end.

(** Every command of the sequence is [undoExact] in the window it meets. *)
Fixpoint exactTrace (ops : list Command) (w : Window) : Prop :=
  match ops with
  | [] => True
  | op :: rest => undoExact op w /\ exactTrace rest (run op w).1
  end.

(** [1] when the two symbols are the same, [0] otherwise. *)
Definition same (k1 k2 : Entry) : nat := if decide (k1 = k2) then 1 else 0.

(** The symbol a successful command takes out of the entries and the one
    it puts in. *)
Definition taken (op : Command) : option Entry :=
  match op with
  | AddPending => None
  | RemovePending => Some Pending
  | Classify _ => Some Pending
  | Declassify k => Some (kindEntry k)
  end.

Definition given (op : Command) : option Entry :=
  match op with
  | AddPending => Some Pending
  | RemovePending => None
  | Classify k => Some (kindEntry k)
  | Declassify _ => Some Pending
  end.

Definition tally (k : Entry) (o : option Entry) : nat :=
  match o with
  | Some e => same k e
  | None => 0
  end.

(** Text made of decimal digits only. *)
Fixpoint allDigits (s : string) : Prop :=
  match s with
  | EmptyString => True
  | String c r => is_Some (digitValue c) /\ allDigits r
  end.

(** A field separator position: the end of the line, or a comma and what
    follows it. *)
Definition afterField (t : string) : Prop :=
  t = EmptyString \/ exists r, t = String comma r.

(** The entries that make a row of the detail export. *)
Definition classified (e : Entry) : Prop := e = Moving \/ e = Staying.

(** A text of lines: every row followed by a line feed. *)
Fixpoint linesText (rows : list string) : string :=
  match rows with
  | [] => EmptyString
  | r :: rows' => r +:+ str newline +:+ linesText rows'
  end.

(** Two sessions of two windows, the first with a pending entry left in
    its second window, the second fully classified. *)
Definition sessionWithPending : State :=
  mkState "cam" 300
    [mkWindow 0 300 [Moving; Staying] EmptyString [];
     mkWindow 300 600 [Moving; Pending] EmptyString []]
    0%nat None None.

Definition sessionClassified : State :=
  mkState "cam" 300
    [mkWindow 0 300 [Moving; Hole; Staying] EmptyString [];
     mkWindow 300 600 [Staying] "a,b" []]
    0%nat None None.

(** * Properties *)

(** ** The downward scan *)

Lemma scanDown_Some k l n i :
  scanDown k l n = Some i ->
  (i < n)%nat /\ l !! i = Some k /\ forall j, (i < j < n)%nat -> l !! j <> Some k.
Proof.
  induction n as [|n IH]; simpl; [done|].
  case_decide as Hn.
  - intros [= <-]. split; [lia|]. split; [done|]. intros j ?; lia.
  - intros Hs. destruct (IH Hs) as (Hlt & Hi & Hj).
    split; [lia|]. split; [done|].
    intros j ?. destruct (decide (j = n)) as [->|]; [done|]. apply Hj; lia.
Qed.

Lemma scanDown_None k l n :
  scanDown k l n = None -> forall j, (j < n)%nat -> l !! j <> Some k.
Proof.
  induction n as [|n IH]; simpl; [intros _ j ?; lia|].
  case_decide as Hn; [done|].
  intros Hs j ?. destruct (decide (j = n)) as [->|]; [done|]. apply IH; [done|lia].
Qed.

Lemma findLast_Some k l i :
  findLast k l = Some i ->
  l !! i = Some k /\ forall j, (i < j)%nat -> l !! j <> Some k.
Proof.
  intros Hs. destruct (scanDown_Some _ _ _ _ Hs) as (_ & Hi & Hj).
  split; [done|]. intros j Hlt.
  destruct (decide (j < length l)%nat) as [Hin|Hout].
  - apply Hj; lia.
  - rewrite lookup_ge_None_2; [done|lia].
Qed.

Lemma findLast_None k l : findLast k l = None <-> k ∉ l.
Proof.
  split.
  - intros Hn [j Hj]%list_elem_of_lookup.
    apply (scanDown_None _ _ _ Hn j); [|done].
    by apply lookup_lt_Some in Hj.
  - intros Hnot. destruct (findLast k l) as [i|] eqn:Hs; [|done].
    destruct (findLast_Some _ _ _ Hs) as [Hi _].
    exfalso. apply Hnot. by eapply list_elem_of_lookup_2.
Qed.

Lemma findLast_found k l : k ∈ l -> exists i, findLast k l = Some i.
Proof.
  intros Hin. destruct (findLast k l) as [i|] eqn:Hs; [by exists i|].
  by apply findLast_None in Hs.
Qed.

Lemma findLast_highest k l i :
  l !! i = Some k -> (forall j, (i < j)%nat -> l !! j <> Some k) ->
  findLast k l = Some i.
Proof.
  intros Hi Hj.
  destruct (findLast_found k l) as [i' Hs]; [by eapply list_elem_of_lookup_2|].
  destruct (findLast_Some _ _ _ Hs) as [Hi' Hj'].
  rewrite Hs. f_equal.
  destruct (Nat.lt_trichotomy i i') as [Hlt|[->|Hlt]]; [|done|].
  - by destruct (Hj i' Hlt).
  - by destruct (Hj' i Hlt).
Qed.

Lemma findLast_snoc k l : findLast k (l ++ [k]) = Some (length l).
Proof.
  apply findLast_highest.
  - by rewrite lookup_app_r, Nat.sub_diag.
  - intros j Hlt. rewrite lookup_ge_None_2; [done|].
    rewrite length_app; simpl; lia.
Qed.

Lemma pop_snoc {A} (l : list A) (x : A) : pop (l ++ [x]) = Some (l, x).
Proof. unfold pop. by rewrite rev_unit, rev_involutive. Qed.

Lemma delete_snoc {A} (l : list A) (x : A) : delete (length l) (l ++ [x]) = l.
Proof. by rewrite delete_middle, app_nil_r. Qed.

Lemma arraySet_in_range l i v :
  (i < length l)%nat -> arraySet l i v = <[i:=v]> l.
Proof. intros Hlt. unfold arraySet. by rewrite decide_True. Qed.

(** ** What each handler does to the window *)

Lemma removePerson_ok w i :
  findLast Pending (entries w) = Some i ->
  removePerson w =
    (set_history (history w ++ [OpRemove]) (set_entries (delete i (entries w)) w), None).
Proof. intros Hs. unfold removePerson. by rewrite Hs. Qed.

Lemma assignFromPending_ok toKind w i :
  findLast Pending (entries w) = Some i ->
  assignFromPending toKind w =
    (set_history (history w ++ [OpAssign i Pending toKind])
       (set_entries (<[i:=toKind]> (entries w)) w), None).
Proof. intros Hs. unfold assignFromPending. by rewrite Hs. Qed.

Lemma revertToPending_ok fromKind w i :
  findLast fromKind (entries w) = Some i ->
  revertToPending fromKind w =
    (set_history (history w ++ [OpAssign i fromKind Pending])
       (set_entries (<[i:=Pending]> (entries w)) w), None).
Proof. intros Hs. unfold revertToPending. by rewrite Hs. Qed.

Lemma undo_empty_history w : history w = [] -> undo w = (w, None).
Proof. intros Hh. unfold undo. by rewrite Hh. Qed.

Lemma undo_no_alert w : (undo w).2 = None.
Proof. unfold undo. by destruct (pop (history w)) as [[h last]|]. Qed.

Lemma command_on_current op inp st w :
  windows st !! currentIndex st = Some w ->
  command op inp st =
    (set_windows (<[currentIndex st := (run op w).1]> (windows st)) st,
     alertUi (run op w).2).
Proof.
  intros Hw. unfold command, ensureWindowsOrGenerate.
  rewrite decide_True by (intros Hnil; by rewrite Hnil in Hw).
  unfold onCurrentWindow. rewrite Hw. by destruct (run op w) as [w' a].
Qed.

Lemma undoCurrent_on_current st w :
  windows st !! currentIndex st = Some w ->
  undoCurrent st =
    (set_windows (<[currentIndex st := (undo w).1]> (windows st)) st, []).
Proof.
  intros Hw. unfold undoCurrent.
  rewrite decide_False by (intros Hnil; by rewrite Hnil in Hw).
  unfold onCurrentWindow. rewrite Hw.
  pose proof (undo_no_alert w) as Hna.
  destruct (undo w) as [w' a]. simpl in Hna. by subst a.
Qed.

Lemma undo_addPerson w : (undo (addPerson w).1).1 = w.
Proof.
  destruct w as [a b es n h]. unfold undo, addPerson; simpl.
  by rewrite pop_snoc, findLast_snoc, delete_snoc.
Qed.

Lemma undo_assign w i from to :
  entries w !! i = Some from ->
  (undo (set_history (history w ++ [OpAssign i from to])
           (set_entries (<[i:=to]> (entries w)) w))).1 = w.
Proof.
  intros Hi. destruct w as [a b es n h]; simpl in *.
  unfold undo; simpl. rewrite pop_snoc; simpl.
  rewrite arraySet_in_range.
  - by rewrite list_insert_insert_eq, list_insert_id.
  - rewrite length_insert. by eapply lookup_lt_Some.
Qed.

Lemma undo_removePerson w i :
  findLast Pending (entries w) = Some i ->
  (undo (removePerson w).1).1 =
    set_entries (delete i (entries w) ++ [Pending]) w.
Proof.
  intros Hs. rewrite (removePerson_ok _ _ Hs).
  destruct w as [a b es n h]; simpl in *.
  unfold undo; simpl. by rewrite pop_snoc.
Qed.

(** Re-appending the removed entry gives the old list back exactly when the
    old list ended with a pending entry. *)
Lemma delete_last_pending_snoc es i :
  findLast Pending es = Some i ->
  (delete i es ++ [Pending] = es <-> last es = Some Pending).
Proof.
  intros Hs. destruct (findLast_Some _ _ _ Hs) as [Hi Hj]. split.
  - intros <-. apply last_snoc.
  - intros Hlast. pose proof Hlast as Hl. rewrite last_lookup in Hl.
    assert (i = Init.Nat.pred (length es)) as ->.
    { pose proof (lookup_lt_Some _ _ _ Hi).
      destruct (decide (i = Init.Nat.pred (length es))); [done|].
      destruct (Hj (Init.Nat.pred (length es))); [lia|done]. }
    apply last_Some in Hlast as [l' ->].
    rewrite length_app; simpl.
    replace (Init.Nat.pred (length l' + 1)) with (length l') by lia.
    by rewrite delete_snoc.
Qed.

(** C3: [assignFromPending] rewrites the pending entry added last: after two
    [addPerson] and one [assignFromPending Moving] on a fresh window the
    entries are [Pending; Moving]; in general [assignFromPending] and
    [revertToPending], whenever an entry of the sought kind exists, rewrite
    exactly the one with the highest index. *)
Theorem classify_rewrites_highest_index :
  (forall a b,
     entries (assignFromPending Moving
                (addPerson (addPerson (freshWindow a b)).1).1).1
     = [Pending; Moving])
  /\ (forall toKind w, Pending ∈ entries w ->
        exists i, entries w !! i = Some Pending
          /\ (forall j, (i < j)%nat -> entries w !! j <> Some Pending)
          /\ entries (assignFromPending toKind w).1 = <[i:=toKind]> (entries w)
          /\ (assignFromPending toKind w).2 = None)
  /\ (forall fromKind w, fromKind ∈ entries w ->
        exists i, entries w !! i = Some fromKind
          /\ (forall j, (i < j)%nat -> entries w !! j <> Some fromKind)
          /\ entries (revertToPending fromKind w).1 = <[i:=Pending]> (entries w)
          /\ (revertToPending fromKind w).2 = None).
Proof.
  split; [done|]. split.
  - intros toKind w [i Hs]%findLast_found.
    destruct (findLast_Some _ _ _ Hs) as [Hi Hj].
    exists i. by rewrite (assignFromPending_ok _ _ _ Hs).
  - intros fromKind w [i Hs]%findLast_found.
    destruct (findLast_Some _ _ _ Hs) as [Hi Hj].
    exists i. by rewrite (revertToPending_ok _ _ _ Hs).
Qed.

Lemma classify_rewrites_highest_index_witness :
  let w := mkWindow 0 300 [Pending; Moving; Pending; Staying] EmptyString [] in
  (exists i, entries w !! i = Some Pending
     /\ (forall j, (i < j)%nat -> entries w !! j <> Some Pending)
     /\ entries (assignFromPending Staying w).1 = <[i:=Staying]> (entries w)
     /\ (assignFromPending Staying w).2 = None)
  /\ entries (assignFromPending Staying w).1 = [Pending; Moving; Staying; Staying]
  /\ entries (revertToPending Moving w).1 = [Pending; Pending; Pending; Staying].
Proof.
  split; [|split; reflexivity].
  apply (proj1 (proj2 classify_rewrites_highest_index)).
  simpl. apply list_elem_of_here.
Defined.

(** C8: [removePerson] and [assignFromPending] raise the no-pending alert
    exactly when the window holds no pending entry, [revertToPending]
    raises its alert exactly when no entry of the given kind exists, an
    alert leaves the window (entries and history included) as it was, and
    [undo] on an empty history changes nothing and raises no alert. *)
Theorem failure_iff_no_eligible_entry (w : Window) (k : Entry) :
  ((removePerson w).2 = Some NoPendingEntry <-> Pending ∉ entries w)
  /\ ((assignFromPending k w).2 = Some NoPendingEntry <-> Pending ∉ entries w)
  /\ ((revertToPending k w).2 = Some (NoEntryOfKind k) <-> k ∉ entries w)
  /\ (forall a, (removePerson w).2 = Some a ->
        a = NoPendingEntry /\ (removePerson w).1 = w)
  /\ (forall a, (assignFromPending k w).2 = Some a ->
        a = NoPendingEntry /\ (assignFromPending k w).1 = w)
  /\ (forall a, (revertToPending k w).2 = Some a ->
        a = NoEntryOfKind k /\ (revertToPending k w).1 = w)
  /\ (history w = [] -> undo w = (w, None))
  /\ (undo w).2 = None.
Proof.
  unfold removePerson, assignFromPending, revertToPending.
  rewrite <- !findLast_None.
  destruct (findLast Pending (entries w)) as [i|];
    destruct (findLast k (entries w)) as [i'|]; simpl.
  all: repeat split; try done.
  all: first [ congruence | apply undo_empty_history | apply undo_no_alert ].
Qed.

Lemma failure_iff_no_eligible_entry_witness :
  let w := mkWindow 0 300 [Moving] EmptyString [] in
  undo w = (w, None) /\ removePerson w = (w, Some NoPendingEntry).
Proof.
  split; [|reflexivity].
  apply (failure_iff_no_eligible_entry (mkWindow 0 300 [Moving] EmptyString []) Staying).
  reflexivity.
Defined.

(** ** Undo after one command *)

Lemma run_ok_classify k w :
  (run (Classify k) w).2 = None ->
  exists i, entries w !! i = Some Pending
    /\ (run (Classify k) w).1 =
         set_history (history w ++ [OpAssign i Pending (kindEntry k)])
           (set_entries (<[i:=kindEntry k]> (entries w)) w).
Proof.
  simpl. unfold assignFromPending.
  destruct (findLast Pending (entries w)) as [i|] eqn:Hs; [|done].
  intros _. exists i. by destruct (findLast_Some _ _ _ Hs).
Qed.

Lemma run_ok_declassify k w :
  (run (Declassify k) w).2 = None ->
  exists i, entries w !! i = Some (kindEntry k)
    /\ (run (Declassify k) w).1 =
         set_history (history w ++ [OpAssign i (kindEntry k) Pending])
           (set_entries (<[i:=Pending]> (entries w)) w).
Proof.
  simpl. unfold revertToPending.
  destruct (findLast (kindEntry k) (entries w)) as [i|] eqn:Hs; [|done].
  intros _. exists i. by destruct (findLast_Some _ _ _ Hs).
Qed.




(** A refused command logs nothing, so an [undo] after it reverts the
    command before it. *)
Example undo_after_refused_command :
  let w := mkWindow 0 300 [Moving] EmptyString [OpAdd; OpAssign 0 Pending Moving] in
  run RemovePending w = (w, Some NoPendingEntry)
  /\ entries (undo (run RemovePending w).1).1 = [Pending].
Proof. split; reflexivity. Qed.

(** [clearCurrent] empties the entries and keeps the history; undoing an
    earlier assignment then writes past the end of the array. *)
Example undo_after_clearCurrent :
  let w := mkWindow 0 300 [Pending; Moving] EmptyString
             [OpAdd; OpAdd; OpAssign 1 Pending Moving] in
  entries (undo (clearCurrent w)).1 = [Hole; Pending].
Proof. reflexivity. Qed.

(** ** Coverage *)

Lemma isCovered_true cov a b :
  isCovered cov a b = true <->
  exists c, c ∈ cov /\ startAbs c <= a /\ b <= endAbs c.
Proof.
  unfold isCovered. rewrite existsb_exists. split.
  - intros (c & Hin & Hc). apply andb_true_iff in Hc as [H1 H2].
    exists c. rewrite list_elem_of_In. split; [done|]. lia.
  - intros (c & Hin & H1 & H2). exists c. rewrite <- list_elem_of_In.
    split; [done|]. apply andb_true_iff. lia.
Qed.

Lemma isCovered_false cov a b :
  isCovered cov a b = false <->
  forall c, c ∈ cov -> ~ (startAbs c <= a /\ b <= endAbs c).
Proof.
  rewrite <- not_true_iff_false, isCovered_true. split.
  - intros Hno c Hin Hc. apply Hno. by exists c.
  - intros Hno (c & Hin & Hc). by apply (Hno c).
Qed.

(** C1: a window counts as covered exactly when one single coverage
    interval contains it; a window that straddles the common boundary of
    two back-to-back intervals is not covered by the two of them. *)
Theorem isCovered_by_one_interval :
  (forall cov a b,
     isCovered cov a b = true <->
     exists c, c ∈ cov /\ startAbs c <= a /\ b <= endAbs c)
  /\ (forall c1 c2 a b,
        endAbs c1 = startAbs c2 -> a < endAbs c1 < b ->
        isCovered [c1; c2] a b = false).
Proof.
  split; [apply isCovered_true|].
  intros c1 c2 a b Hadj Hstraddle. apply isCovered_false.
  intros c Hin. rewrite !elem_of_cons, elem_of_nil in Hin.
  destruct Hin as [-> | [-> | []]]; lia.
Qed.

Lemma isCovered_by_one_interval_witness :
  startAbs (mkCov 0 1920) <= 1800 /\ 2100 <= endAbs (mkCov 1920 3600)
  /\ isCovered [mkCov 0 1920; mkCov 1920 3600] 1800 2100 = false.
Proof.
  split; [simpl; lia|]. split; [simpl; lia|].
  apply (proj2 isCovered_by_one_interval (mkCov 0 1920) (mkCov 1920 3600) 1800 2100);
    simpl; lia.
Defined.

(** ** Alignment *)

Lemma alignDown_spec step ts :
  0 < step ->
  (step | alignDown step ts) /\ alignDown step ts <= ts < alignDown step ts + step.
Proof.
  intros Hs. unfold alignDown. split; [apply Z.divide_factor_r|].
  pose proof (Z.div_mod ts step). pose proof (Z.mod_pos_bound ts step). lia.
Qed.

Lemma alignUp_spec step ts :
  0 < step ->
  (step | alignUp step ts) /\ alignUp step ts - step < ts <= alignUp step ts.
Proof.
  intros Hs. unfold alignUp, ceilDiv. split; [apply Z.divide_factor_r|].
  pose proof (Z.div_mod (- ts) step). pose proof (Z.mod_pos_bound (- ts) step). lia.
Qed.

(** [alignUp] is the smallest multiple of [step] at or above [ts], and
    [alignDown] the largest at or below it. *)
Lemma alignUp_least step ts a :
  0 < step -> (step | a) -> ts <= a -> alignUp step ts <= a.
Proof.
  intros Hs [q ->] Hle. destruct (alignUp_spec step ts Hs) as [[p Hp] Hb].
  rewrite Hp in *. assert (p - 1 < q) by nia. nia.
Qed.

Lemma alignDown_greatest step ts a :
  0 < step -> (step | a) -> a <= ts -> a <= alignDown step ts.
Proof.
  intros Hs [q ->] Hle. destruct (alignDown_spec step ts Hs) as [[p Hp] Hb].
  rewrite Hp in *. assert (q < p + 1) by nia. nia.
Qed.

(** X3: for a positive step, [alignUp] yields the smallest multiple of
    [step] at or above the timestamp and [alignDown] the largest multiple at
    or below it. *)
Theorem align_to_grid (step ts : Z) :
  0 < step ->
  ((step | alignUp step ts) /\ ts <= alignUp step ts
   /\ forall a, (step | a) -> ts <= a -> alignUp step ts <= a)
  /\ ((step | alignDown step ts) /\ alignDown step ts <= ts
      /\ forall a, (step | a) -> a <= ts -> a <= alignDown step ts).
Proof.
  intros Hs.
  destruct (alignUp_spec step ts Hs) as [Hu Hub].
  destruct (alignDown_spec step ts Hs) as [Hd Hdb].
  split; (split; [done|]); (split; [lia|]); intros a Ha Hle.
  - by apply alignUp_least.
  - by apply alignDown_greatest.
Qed.

Lemma align_to_grid_witness :
  alignUp 300 1704099780 = 1704099900 /\ alignDown 300 1704103080 = 1704102900
  /\ 1704099780 <= alignUp 300 1704099780.
Proof.
  split; [reflexivity|]. split; [reflexivity|].
  apply (align_to_grid 300 1704099780). lia.
Defined.

(** ** The grid loop *)

Lemma gridStarts_done step t e :
  0 < step -> ~ (t + step <= e) -> gridStarts step t e = [].
Proof.
  intros Hs Hn. unfold gridStarts. rewrite seqZ_nil; [done|].
  assert ((e - t) / step < 1); [|lia].
  apply Z.div_lt_upper_bound; lia.
Qed.

Lemma gridStarts_step step t e :
  0 < step -> t + step <= e ->
  gridStarts step t e = t :: gridStarts step (t + step) e.
Proof.
  intros Hs Hle. unfold gridStarts.
  assert (1 <= (e - t) / step) by (apply Z.div_le_lower_bound; lia).
  rewrite seqZ_cons by lia. rewrite fmap_cons. f_equal; [lia|].
  replace ((e - (t + step)) / step) with (Z.pred ((e - t) / step)).
  - rewrite <- (fmap_add_seqZ 1 0). rewrite <- list_fmap_compose.
    apply list_fmap_ext. intros _ k _. simpl. lia.
  - replace (e - (t + step)) with (e - t + (-1) * step) by lia.
    rewrite Z.div_add by lia. lia.
Qed.

Lemma elem_of_gridStarts step t e a :
  0 < step ->
  a ∈ gridStarts step t e <-> exists k, 0 <= k /\ a = t + k * step /\ a + step <= e.
Proof.
  intros Hs. unfold gridStarts. rewrite list_elem_of_fmap. split.
  - intros (k & -> & Hk%elem_of_seqZ). exists k. split; [lia|]. split; [done|].
    assert (k + 1 <= (e - t) / step) as Hq by lia.
    pose proof (Z.mul_div_le (e - t) step Hs). nia.
  - intros (k & Hk & -> & Hle). exists k. split; [done|].
    apply elem_of_seqZ. split; [lia|].
    assert (k + 1 <= (e - t) / step); [|lia].
    apply Z.div_le_lower_bound; lia.
Qed.

Lemma gridLoop_explicit step Hstep cov sAbs e t :
  gridLoop step Hstep cov sAbs e t =
  (fun a => freshWindow (a - sAbs) (a + step - sAbs))
    <$> filter (fun a => isCovered cov a (a + step) = true) (gridStarts step t e).
Proof.
  funelim (gridLoop step Hstep cov sAbs e t).
  - rewrite gridStarts_step by done. rewrite filter_cons.
    destruct (isCovered cov t (t + step)) eqn:Hc.
    + rewrite decide_True by done. rewrite fmap_cons. by f_equal.
    + by rewrite decide_False by done.
  - by rewrite gridStarts_done.
Qed.

Lemma elem_of_gridLoop step Hstep cov sAbs e t w :
  w ∈ gridLoop step Hstep cov sAbs e t <->
  exists a, a ∈ gridStarts step t e /\ isCovered cov a (a + step) = true
    /\ w = freshWindow (a - sAbs) (a + step - sAbs).
Proof.
  rewrite gridLoop_explicit, list_elem_of_fmap. split.
  - intros (a & -> & [Hc Hin]%list_elem_of_filter). by exists a.
  - intros (a & Hin & Hc & ->). exists a. split; [done|].
    by apply list_elem_of_filter.
Qed.

Lemma gridStarts_onGrid step sAbs eAbs a :
  0 < step ->
  a ∈ gridStarts step (alignUp step sAbs) (alignDown step eAbs) <->
  onGrid step sAbs eAbs a.
Proof.
  intros Hs. rewrite elem_of_gridStarts by done.
  destruct (alignUp_spec step sAbs Hs) as [[p Hp] _]. unfold onGrid. split.
  - intros (k & Hk & -> & Hle). split; [|split; [nia|done]].
    exists (p + k). lia.
  - intros ([q ->] & Hlo & Hhi). exists (q - p). split; [nia|]. split; [lia|done].
Qed.

Lemma ascending_nil : ascending [].
Proof. intros i j wi wj _ Hi. by rewrite lookup_nil in Hi. Qed.

Lemma ascending_cons w ws :
  (forall w', w' ∈ ws -> endSec w <= startSec w') ->
  ascending ws -> ascending (w :: ws).
Proof.
  intros Hw Hws i j wi wj Hlt Hi Hj.
  destruct j as [|j]; [lia|]. simpl in Hj.
  destruct i as [|i]; simpl in Hi.
  - injection Hi as <-. apply Hw. by eapply list_elem_of_lookup_2.
  - apply (Hws i j); [lia|done|done].
Qed.

Lemma ascending_NoDup ws :
  ascending ws -> Forall (fun w => startSec w < endSec w) ws -> NoDup ws.
Proof.
  intros Hasc Hpos. apply NoDup_alt. intros i j w Hi Hj.
  assert (startSec w < endSec w) as Hw.
  { rewrite Forall_forall in Hpos. apply Hpos. by eapply list_elem_of_lookup_2. }
  destruct (Nat.lt_trichotomy i j) as [Hlt|[->|Hlt]]; [|done|].
  - pose proof (Hasc i j w w Hlt Hi Hj). lia.
  - pose proof (Hasc j i w w Hlt Hj Hi). lia.
Qed.

Lemma gridLoop_width step Hstep cov sAbs e t :
  Forall (fun w => endSec w - startSec w = step) (gridLoop step Hstep cov sAbs e t).
Proof.
  funelim (gridLoop step Hstep cov sAbs e t); [|done].
  destruct (isCovered cov t (t + step)); [|done].
  constructor; [simpl; lia|done].
Qed.

Lemma gridLoop_ascending step Hstep cov sAbs e t :
  ascending (gridLoop step Hstep cov sAbs e t).
Proof.
  funelim (gridLoop step Hstep cov sAbs e t); [|apply ascending_nil].
  destruct (isCovered cov t (t + step)); [|done].
  apply ascending_cons; [|done].
  intros w' (a & (k & Hk & -> & _)%elem_of_gridStarts & _ & ->)%elem_of_gridLoop;
    [|done].
  simpl. nia.
Qed.

Lemma gridLoop_NoDup step Hstep cov sAbs e t :
  NoDup (gridLoop step Hstep cov sAbs e t).
Proof.
  apply ascending_NoDup; [apply gridLoop_ascending|].
  eapply Forall_impl; [apply gridLoop_width|]. simpl. intros w Hw. lia.
Qed.

(** ** Wall-clock generation *)

Lemma buildWindowsFromAbsRange_ok vid sAbs eAbs minutes st :
  vid <> EmptyString ->
  buildWindowsFromAbsRange vid sAbs eAbs minutes st =
    let step := Z.max 1 minutes * 60 in
    let ws := gridLoop step (max1_step_pos minutes)
                (coverageOr (coverage st) sAbs eAbs) sAbs
                (alignDown step eAbs) (alignUp step sAbs) in
    (mkState vid step ws 0%nat (Some sAbs) (coverage st),
     if decide (length ws = 0%nat) then [UiStatus NoOnGridWindow] else [],
     true).
Proof. intros Hvid. unfold buildWindowsFromAbsRange. by rewrite decide_False. Qed.

Lemma gridLoop_spec step (Hstep : 0 < step) cov sAbs eAbs :
  let ws := gridLoop step Hstep cov sAbs (alignDown step eAbs) (alignUp step sAbs) in
  (forall w, w ∈ ws <->
     exists a, onGrid step sAbs eAbs a /\ isCovered cov a (a + step) = true
       /\ w = freshWindow (a - sAbs) (a + step - sAbs))
  /\ ascending ws /\ NoDup ws
  /\ Forall (fun w => endSec w - startSec w = step) ws.
Proof.
  intros ws. split; [|split; [|split]].
  - intros w. unfold ws. rewrite elem_of_gridLoop.
    split; intros (a & Ha & Hc & ->); exists a; (split; [|done]).
    + by apply gridStarts_onGrid.
    + by apply gridStarts_onGrid.
  - apply gridLoop_ascending.
  - apply gridLoop_NoDup.
  - apply gridLoop_width.
Qed.

(** C4: wall-clock generation keeps exactly the on-grid slots
    [(a, a + step)], [a] a multiple of [step] with
    [alignUp startAbs <= a] and [a + step <= alignDown endAbs], that one
    single coverage interval contains, each turned into the offsets
    [(a - startAbs, a + step - startAbs)]; the windows come in ascending
    order, each once and each of length [step]. This holds of the loop at
    every positive step, and of the handler at its step
    [max 1 minutes * 60]: given a video id it stores this list with origin
    [startAbs], returns [true], raises no alert, and shows the no-window
    notice exactly when the list is empty. *)
Theorem wall_clock_windows_on_grid :
  (forall step (Hstep : 0 < step) cov sAbs eAbs,
     let ws := gridLoop step Hstep cov sAbs (alignDown step eAbs) (alignUp step sAbs) in
     (forall w, w ∈ ws <->
        exists a, onGrid step sAbs eAbs a /\ isCovered cov a (a + step) = true
          /\ w = freshWindow (a - sAbs) (a + step - sAbs))
     /\ ascending ws /\ NoDup ws
     /\ Forall (fun w => endSec w - startSec w = step) ws)
  /\ (forall vid sAbs eAbs minutes st,
        vid <> EmptyString ->
        let step := Z.max 1 minutes * 60 in
        let cov := coverageOr (coverage st) sAbs eAbs in
        let r := buildWindowsFromAbsRange vid sAbs eAbs minutes st in
        r.2 = true
        /\ absOrigin r.1.1 = Some sAbs
        /\ windowSeconds r.1.1 = step
        /\ (forall w, w ∈ windows r.1.1 <->
              exists a, onGrid step sAbs eAbs a /\ isCovered cov a (a + step) = true
                /\ w = freshWindow (a - sAbs) (a + step - sAbs))
        /\ ascending (windows r.1.1) /\ NoDup (windows r.1.1)
        /\ Forall (fun w => endSec w - startSec w = step) (windows r.1.1)
        /\ r.1.2 = match windows r.1.1 with
                   | [] => [UiStatus NoOnGridWindow]
                   | _ :: _ => []
                   end).
Proof.
  split; [apply gridLoop_spec|].
  intros vid sAbs eAbs minutes st Hvid step cov r.
  unfold r. rewrite buildWindowsFromAbsRange_ok by done.
  cbn [fst snd windows absOrigin windowSeconds]. fold step. fold cov.
  destruct (gridLoop_spec step (max1_step_pos minutes) cov sAbs eAbs)
    as (Hin & Hasc & Hnd & Hw).
  repeat (split; [done|]).
  by destruct (gridLoop step _ cov sAbs _ _).
Qed.

Lemma wall_clock_windows_on_grid_witness :
  let st := mkState EmptyString 300 [] 0%nat None
              (Some [mkCov 1704099780 1704101520; mkCov 1704101520 1704103080]) in
  let r := buildWindowsFromAbsRange "cam" 1704099780 1704103080 5 st in
  r.2 = true
  /\ absOrigin r.1.1 = Some 1704099780
  /\ (startSec <$> windows r.1.1) = [120; 420; 720; 1020; 1320; 1920; 2220; 2520; 2820].
Proof.
  destruct (proj2 wall_clock_windows_on_grid "cam" 1704099780 1704103080 5
              (mkState EmptyString 300 [] 0%nat None
                 (Some [mkCov 1704099780 1704101520; mkCov 1704101520 1704103080])))
    as (Hret & Horigin & _); [discriminate|].
  split; [exact Hret|]. split; [exact Horigin|].
  vm_compute. reflexivity.
Defined.

Lemma filter_all {A} (P : A -> Prop) `{forall x, Decision (P x)} (l : list A) :
  Forall P l -> filter P l = l.
Proof.
  induction 1 as [|x l Hx Hl IH]; [done|].
  rewrite filter_cons, decide_True by done. by f_equal.
Qed.

Lemma isCovered_whole_range step sAbs eAbs a :
  0 < step ->
  a ∈ gridStarts step (alignUp step sAbs) (alignDown step eAbs) ->
  isCovered [mkCov sAbs eAbs] a (a + step) = true.
Proof.
  intros Hs (_ & Hlo & Hhi)%gridStarts_onGrid; [|done].
  destruct (alignUp_spec step sAbs Hs) as [_ ?].
  destruct (alignDown_spec step eAbs Hs) as [_ ?].
  apply isCovered_true. exists (mkCov sAbs eAbs).
  split; [apply list_elem_of_here|]. simpl. lia.
Qed.

(** C10: when no coverage list is stored, wall-clock generation tests the
    slots against the requested range [startAbs, endAbs] taken as the one
    coverage interval, and so emits every on-grid slot of that range. *)
Theorem no_coverage_emits_every_slot vid sAbs eAbs minutes st :
  vid <> EmptyString ->
  coverage st = None ->
  let step := Z.max 1 minutes * 60 in
  let st' := (buildWindowsFromAbsRange vid sAbs eAbs minutes st).1.1 in
  coverageOr (coverage st) sAbs eAbs = [mkCov sAbs eAbs]
  /\ windows st' =
       (fun a => freshWindow (a - sAbs) (a + step - sAbs))
         <$> gridStarts step (alignUp step sAbs) (alignDown step eAbs)
  /\ (forall a, onGrid step sAbs eAbs a ->
        freshWindow (a - sAbs) (a + step - sAbs) ∈ windows st')
  /\ length (windows st') =
       Z.to_nat ((alignDown step eAbs - alignUp step sAbs) / step).
Proof.
  intros Hvid Hcov step st'.
  assert (0 < step) as Hs by (unfold step; lia).
  assert (windows st' =
            (fun a => freshWindow (a - sAbs) (a + step - sAbs))
              <$> gridStarts step (alignUp step sAbs) (alignDown step eAbs)) as Hws.
  { unfold st'. rewrite buildWindowsFromAbsRange_ok by done. simpl.
    rewrite Hcov. simpl. fold step. rewrite gridLoop_explicit. f_equal.
    apply filter_all, Forall_forall. intros a Ha.
    by apply (isCovered_whole_range step sAbs eAbs). }
  split; [by rewrite Hcov|]. split; [done|]. split.
  - intros a Ha. rewrite Hws. apply list_elem_of_fmap. exists a.
    split; [done|]. by apply gridStarts_onGrid.
  - rewrite Hws, length_fmap. unfold gridStarts.
    by rewrite length_fmap, length_seqZ.
Qed.

Lemma no_coverage_emits_every_slot_witness :
  length (windows (buildWindowsFromAbsRange "cam" 1704099780 1704103080 5
                     (mkState EmptyString 300 [] 0%nat None None)).1.1)
  = 10%nat.
Proof.
  refine (eq_trans
            (proj2 (proj2 (proj2
               (no_coverage_emits_every_slot "cam" 1704099780 1704103080 5
                  (mkState EmptyString 300 [] 0%nat None None) _ _)))) _).
  - discriminate.
  - reflexivity.
  - vm_compute. reflexivity.
Defined.

(** ** The manual loop *)

Lemma ceilDiv_nonpos a b : 0 < b -> a <= 0 -> ceilDiv a b <= 0.
Proof.
  intros Hb Ha. unfold ceilDiv.
  assert (0 <= (- a) / b) by (apply Z.div_pos; lia). lia.
Qed.

Lemma ceilDiv_step a b : 0 < b -> 0 < a -> ceilDiv a b = Z.succ (ceilDiv (a - b) b).
Proof.
  intros Hb Ha. unfold ceilDiv.
  replace (- (a - b)) with (- a + 1 * b) by lia.
  rewrite Z.div_add by lia. lia.
Qed.

Lemma ceilDiv_pos a b : 0 < b -> 0 < a -> 0 < ceilDiv a b.
Proof.
  intros Hb Ha. unfold ceilDiv.
  assert ((- a) / b < 0); [|lia]. apply Z.div_lt_upper_bound; lia.
Qed.

Lemma relStarts_done step t fin :
  0 < step -> ~ (t < fin) -> relStarts step t fin = [].
Proof.
  intros Hs Hn. unfold relStarts. rewrite seqZ_nil; [done|].
  apply ceilDiv_nonpos; lia.
Qed.

Lemma relStarts_step step t fin :
  0 < step -> t < fin -> relStarts step t fin = t :: relStarts step (t + step) fin.
Proof.
  intros Hs Hlt. unfold relStarts.
  pose proof (ceilDiv_pos (fin - t) step Hs).
  rewrite seqZ_cons by lia. rewrite fmap_cons. f_equal; [lia|].
  rewrite (ceilDiv_step (fin - t) step) by lia. rewrite Z.pred_succ.
  replace (fin - t - step) with (fin - (t + step)) by lia.
  rewrite <- (fmap_add_seqZ 1 0). rewrite <- list_fmap_compose.
  apply list_fmap_ext. intros _ k _. simpl. lia.
Qed.

Lemma elem_of_relStarts step t fin a :
  0 < step ->
  a ∈ relStarts step t fin <-> exists k, 0 <= k /\ a = t + k * step /\ a < fin.
Proof.
  intros Hs. unfold relStarts, ceilDiv. rewrite list_elem_of_fmap. split.
  - intros (k & -> & Hk%elem_of_seqZ). exists k. split; [lia|]. split; [done|].
    pose proof (Z.div_mod (- (fin - t)) step).
    pose proof (Z.mod_pos_bound (- (fin - t)) step). nia.
  - intros (k & Hk & -> & Hlt). exists k. split; [done|].
    apply elem_of_seqZ. split; [lia|].
    assert ((- (fin - t)) / step < - k); [|lia].
    apply Z.div_lt_upper_bound; nia.
Qed.

Lemma relLoop_nil step Hstep fin t : ~ (t < fin) -> relLoop step Hstep fin t = [].
Proof.
  intros Hn. rewrite relLoop_equation_1. by destruct (decide (t < fin)).
Qed.

Lemma relLoop_explicit step Hstep fin t :
  relLoop step Hstep fin t =
  (fun a => freshWindow a (Z.min (a + step) fin)) <$> relStarts step t fin.
Proof.
  funelim (relLoop step Hstep fin t).
  - rewrite relStarts_step by done. rewrite fmap_cons. by f_equal.
  - by rewrite relStarts_done.
Qed.

Lemma relLoop_tiling step Hstep fin t :
  t < fin -> Tiling t fin (relLoop step Hstep fin t).
Proof.
  funelim (relLoop step Hstep fin t); [|done]. intros _.
  apply (Tiling_cons (freshWindow t (Z.min (t + step) fin))); simpl; [lia|].
  destruct (decide (t + step < fin)) as [Hlt|Hge].
  - rewrite Z.min_l by lia. by apply H.
  - rewrite Z.min_r by lia. rewrite relLoop_nil by done. constructor.
Qed.

Lemma relLoop_widths step Hstep fin t i w :
  relLoop step Hstep fin t !! i = Some w ->
  0 < endSec w - startSec w <= step
  /\ ((S i < length (relLoop step Hstep fin t))%nat -> endSec w - startSec w = step).
Proof.
  revert i. funelim (relLoop step Hstep fin t); [|done].
  intros [|i]; simpl.
  - intros [= <-]; simpl. split; [lia|]. intros Hlen.
    destruct (decide (t + step < fin)); [lia|].
    rewrite relLoop_nil in Hlen by done. simpl in Hlen. lia.
  - intros Hi. destruct (H _ _ Hi) as [Hw Hfull]. split; [done|].
    intros Hlen. apply Hfull. lia.
Qed.

Lemma Tiling_le a c ws : Tiling a c ws -> a <= c.
Proof. induction 1; lia. Qed.

Lemma Tiling_ascending a c ws :
  Tiling a c ws -> ascending ws /\ forall w, w ∈ ws -> a <= startSec w.
Proof.
  induction 1 as [a|w c ws Hw Ht [IHa IHlo]].
  - split; [apply ascending_nil|]. by intros w Hin%elem_of_nil.
  - split.
    + apply ascending_cons; [|done]. intros w' Hin. by apply IHlo.
    + intros w' [-> |Hin]%elem_of_cons; [lia|]. specialize (IHlo _ Hin). lia.
Qed.

Lemma Tiling_covers_once a c ws x :
  Tiling a c ws ->
  length (filter (fun w => startSec w <= x < endSec w) ws) =
    if decide (a <= x < c) then 1%nat else 0%nat.
Proof.
  induction 1 as [a|w c ws Hw Ht IH].
  - rewrite decide_False by lia. done.
  - pose proof (Tiling_le _ _ _ Ht). rewrite filter_cons.
    destruct (decide (startSec w <= x < endSec w)) as [Hin|Hout]; simpl; rewrite IH.
    + rewrite decide_False by lia. rewrite decide_True by lia. done.
    + destruct (decide (endSec w <= x < c)).
      * rewrite decide_True by lia. done.
      * rewrite decide_False by lia. done.
Qed.

(** ** Manual generation *)

Lemma generateWindows_ok vid start fin field st :
  vid <> EmptyString -> start < fin ->
  generateWindows vid start fin field st =
    (mkState vid (minutesOf field * 60)
       (relLoop (minutesOf field * 60) (minutesOf_step_pos field) fin start)
       0%nat None (coverage st), []).
Proof.
  intros Hvid Hlt. unfold generateWindows.
  by rewrite decide_False, decide_True.
Qed.

Lemma relLoop_spec step (Hstep : 0 < step) start fin :
  start < fin ->
  let ws := relLoop step Hstep fin start in
  ws = (fun a => freshWindow a (Z.min (a + step) fin)) <$> relStarts step start fin
  /\ (forall a, a ∈ relStarts step start fin <->
        exists k, 0 <= k /\ a = start + k * step /\ a < fin)
  /\ ascending ws
  /\ (forall x,
        length (filter (fun w => startSec w <= x < endSec w) ws) =
          if decide (start <= x < fin) then 1%nat else 0%nat)
  /\ (forall i w, ws !! i = Some w ->
        0 < endSec w - startSec w <= step
        /\ ((S i < length ws)%nat -> endSec w - startSec w = step)).
Proof.
  intros Hlt ws.
  pose proof (relLoop_tiling step Hstep fin start Hlt) as Ht.
  split; [apply relLoop_explicit|]. split; [intros a; by apply elem_of_relStarts|].
  split; [by destruct (Tiling_ascending _ _ _ Ht)|].
  split; [intros x; by apply Tiling_covers_once|].
  intros i w. apply relLoop_widths.
Qed.

(** C6: for [start < end] and a positive step the manual loop yields the
    windows [(a, min (a + step) end)] for [a = start, start + step, ...]
    while [a < end]; they are in ascending order without overlap, every
    point of [[start, end)] lies in exactly one of them and no other point
    lies in any, every window is non-empty and at most [step] long, and all
    but the last are exactly [step] long. This holds of the loop at every
    positive step, and of the list [generateWindows] stores, at its step
    [windowSeconds = minutes * 60]. *)
Theorem manual_windows_tile_range :
  (forall step (Hstep : 0 < step) start fin,
     start < fin ->
     let ws := relLoop step Hstep fin start in
     ws = (fun a => freshWindow a (Z.min (a + step) fin)) <$> relStarts step start fin
     /\ (forall a, a ∈ relStarts step start fin <->
           exists k, 0 <= k /\ a = start + k * step /\ a < fin)
     /\ ascending ws
     /\ (forall x,
           length (filter (fun w => startSec w <= x < endSec w) ws) =
             if decide (start <= x < fin) then 1%nat else 0%nat)
     /\ (forall i w, ws !! i = Some w ->
           0 < endSec w - startSec w <= step
           /\ ((S i < length ws)%nat -> endSec w - startSec w = step)))
  /\ (forall vid start fin field st,
        vid <> EmptyString -> start < fin ->
        let step := minutesOf field * 60 in
        let ws := windows (generateWindows vid start fin field st).1 in
        windowSeconds (generateWindows vid start fin field st).1 = step
        /\ ws = (fun a => freshWindow a (Z.min (a + step) fin))
                  <$> relStarts step start fin
        /\ ascending ws
        /\ (forall x,
              length (filter (fun w => startSec w <= x < endSec w) ws) =
                if decide (start <= x < fin) then 1%nat else 0%nat)
        /\ (forall i w, ws !! i = Some w ->
              0 < endSec w - startSec w <= step
              /\ ((S i < length ws)%nat -> endSec w - startSec w = step))).
Proof.
  split; [apply relLoop_spec|].
  intros vid start fin field st Hvid Hlt step ws. unfold ws.
  rewrite generateWindows_ok by done. cbn [fst windows windowSeconds]. fold step.
  destruct (relLoop_spec step (minutesOf_step_pos field) start fin Hlt)
    as (Hex & _ & Hasc & Hcov & Hw).
  done.
Qed.

Lemma manual_windows_tile_range_witness :
  let ws := windows (generateWindows "cam" 0 1000 (Some 5)
                       (mkState EmptyString 0 [] 0%nat None None)).1 in
  ws = [freshWindow 0 300; freshWindow 300 600; freshWindow 600 900;
        freshWindow 900 1000]
  /\ length (filter (fun w => startSec w <= 950 < endSec w) ws) = 1%nat.
Proof.
  destruct (proj2 manual_windows_tile_range "cam" 0 1000 (Some 5)
              (mkState EmptyString 0 [] 0%nat None None))
    as (_ & Hex & _ & Hcov & _); [discriminate|lia|].
  split; [|exact (Hcov 950)].
  vm_compute. reflexivity.
Defined.

(** C5, as stated, fails: [generateWindows] never assigns
    [state.coverage], so a coverage list stored by an earlier file
    ingestion is still there after a successful manual generation. *)
Lemma manual_generation_keeps_coverage :
  ~ (forall vid start fin field st,
       vid <> EmptyString -> start < fin ->
       let st' := (generateWindows vid start fin field st).1 in
       absOrigin st' = None /\ (coverage st' = None \/ coverage st' = Some [])).
Proof.
  intros H.
  destruct (H "cam" 0 600 (Some 5)
              (mkState "old" 300 [] 0%nat (Some 1704099600)
                 (Some [mkCov 1704099600 1704103200]))) as [_ [Hc|Hc]];
    [discriminate|lia|discriminate Hc|discriminate Hc].
Qed.

(** C5, amended: a successful manual generation (video id given and
    [start < end]) raises no alert, sets the origin to none, the video id,
    the window length and the current index, replaces the window list, and
    leaves the stored coverage as it was; with an empty video id or with
    [end <= start] it raises the matching alert and returns the state
    unchanged. *)
Theorem manual_generation_state (vid : string) (start fin : Z)
    (field : option Z) (st : State) :
  let r := generateWindows vid start fin field st in
  (vid <> EmptyString -> start < fin ->
     r.2 = []
     /\ absOrigin r.1 = None
     /\ coverage r.1 = coverage st
     /\ videoId r.1 = vid
     /\ windowSeconds r.1 = minutesOf field * 60
     /\ currentIndex r.1 = 0%nat
     /\ windows r.1 =
          relLoop (minutesOf field * 60) (minutesOf_step_pos field) fin start)
  /\ (vid = EmptyString -> r = (st, [UiAlert MissingVideoId]))
  /\ (vid <> EmptyString -> fin <= start -> r = (st, [UiAlert InvalidRange])).
Proof.
  intros r. unfold r. split; [|split].
  - intros Hvid Hlt. by rewrite generateWindows_ok.
  - intros ->. done.
  - intros Hvid Hge. unfold generateWindows.
    rewrite decide_False by done. by rewrite decide_False by lia.
Qed.

Lemma manual_generation_state_witness :
  let st := mkState "old" 300 [] 0%nat (Some 1704099600)
              (Some [mkCov 1704099600 1704103200]) in
  absOrigin (generateWindows "cam" 0 600 (Some 5) st).1 = None
  /\ coverage (generateWindows "cam" 0 600 (Some 5) st).1
     = Some [mkCov 1704099600 1704103200]
  /\ generateWindows "cam" 600 0 (Some 5) st = (st, [UiAlert InvalidRange]).
Proof.
  pose proof (manual_generation_state "cam" 0 600 (Some 5)
                (mkState "old" 300 [] 0%nat (Some 1704099600)
                   (Some [mkCov 1704099600 1704103200]))) as [H _].
  destruct H as (_ & Ho & Hc & _); [discriminate|lia|].
  split; [exact Ho|]. split; [exact Hc|]. reflexivity.
Defined.

(** ** Export gate *)

Lemma countKind_pos k es : (0 < countKind k es)%nat <-> k ∈ es.
Proof.
  unfold countKind. induction es as [|e es IH]; simpl.
  - split; [lia|by intros ?%elem_of_nil].
  - rewrite filter_cons, elem_of_cons. destruct (decide (e = k)) as [->|Hne]; simpl.
    + split; [by left|lia].
    + rewrite IH. split; [by right|]. by intros [->|].
Qed.

Lemma string_app_assoc (s t u : string) : (s +:+ t) +:+ u = s +:+ (t +:+ u).
Proof.
  induction s as [|c s IH]; [done|].
  change (String c ((s +:+ t) +:+ u) = String c (s +:+ (t +:+ u))). by f_equal.
Qed.

Lemma string_app_cons c (s t : string) : String c s +:+ t = String c (s +:+ t).
Proof. done. Qed.

Lemma string_app_nil (t : string) : EmptyString +:+ t = t.
Proof. done. Qed.

Ltac norm_app :=
  repeat first [rewrite string_app_assoc | rewrite string_app_cons
               | rewrite string_app_nil].

Lemma string_app_empty_r (s : string) : s +:+ EmptyString = s.
Proof.
  induction s as [|c s IH]; [done|].
  change (String c (s +:+ EmptyString) = String c s). by f_equal.
Qed.

(** [rows.join(LF) + LF], for the rows after a header, is every row
    followed by a line feed. *)
Lemma blobText_lines r rows : blobText (r :: rows) = linesText (r :: rows).
Proof.
  unfold blobText. revert r. induction rows as [|r' rows IH]; intros r.
  - cbn [String.concat linesText]. by rewrite string_app_empty_r.
  - change (String.concat (str newline) (r :: r' :: rows))
      with (r +:+ str newline +:+ String.concat (str newline) (r' :: rows)).
    rewrite !string_app_assoc, IH. done.
Qed.

Section ExportGate.
Context (absToHMS : Z -> string).

Lemma summaryRows_clean st ws rows :
  (forall w, w ∈ ws -> Pending ∉ entries w) ->
  summaryRows absToHMS st ws rows = Some (rows ++ (summaryRow absToHMS st <$> ws)).
Proof.
  revert rows. induction ws as [|w ws IH]; intros rows Hclean; simpl.
  - by rewrite app_nil_r.
  - rewrite decide_False.
    + rewrite IH; [by rewrite <- app_assoc|].
      intros w' Hin. apply Hclean. by right.
    + rewrite countKind_pos. apply Hclean. by left.
Qed.

Lemma summaryRows_pending st ws rows :
  (exists w, w ∈ ws /\ Pending ∈ entries w) ->
  summaryRows absToHMS st ws rows = None.
Proof.
  revert rows. induction ws as [|w ws IH]; intros rows (w' & Hin & Hp); simpl.
  - by apply elem_of_nil in Hin.
  - destruct (decide (0 < countKind Pending (entries w))%nat) as [|Hn]; [done|].
    apply IH. exists w'. split; [|done].
    apply elem_of_cons in Hin as [->|]; [|done].
    by apply countKind_pos in Hp.
Qed.

Lemma detailEntries_rows st w es idx rows :
  detailEntries absToHMS st w es idx rows =
    rows ++ imap (fun k e => detailRow absToHMS st w (idx + k) e)
              (filter classified es).
Proof.
  revert idx rows. induction es as [|e es IH]; intros idx rows; simpl.
  - by rewrite app_nil_r.
  - rewrite filter_cons. unfold classified at 1.
    destruct (decide (e = Moving \/ e = Staying)) as [Hc|Hc].
    + rewrite IH. simpl. rewrite <- app_assoc. simpl. rewrite Nat.add_0_r.
      do 2 f_equal. apply imap_ext. intros k e' _. simpl. f_equal. lia.
    + by rewrite IH.
Qed.

Lemma detailRows_rows st ws rows :
  (forall w, w ∈ ws -> Pending ∉ entries w) ->
  detailRows absToHMS st ws rows =
    Some (rows ++
          concat ((fun w => imap (fun k e => detailRow absToHMS st w (S k) e)
                              (filter classified (entries w))) <$> ws)).
Proof.
  revert rows. induction ws as [|w ws IH]; intros rows Hclean; simpl.
  - by rewrite app_nil_r.
  - rewrite decide_False.
    + rewrite IH by (intros w' Hin; apply Hclean; by right).
      rewrite detailEntries_rows. by rewrite <- app_assoc.
    + rewrite countKind_pos. apply Hclean. by left.
Qed.

Lemma detailRows_pending st ws rows :
  (exists w, w ∈ ws /\ Pending ∈ entries w) ->
  detailRows absToHMS st ws rows = None.
Proof.
  revert rows. induction ws as [|w ws IH]; intros rows (w' & Hin & Hp); simpl.
  - by apply elem_of_nil in Hin.
  - destruct (decide (0 < countKind Pending (entries w))%nat) as [|Hn]; [done|].
    apply IH. exists w'. split; [|done].
    apply elem_of_cons in Hin as [->|]; [|done].
    by apply countKind_pos in Hp.
Qed.

(** C9: when some window still holds a pending entry, both exporters
    raise the alert and produce no download. When no window does, both
    produce their download: the summary file is the header line and one
    line per window, the detail file the header line and, window by
    window, one line per moving or staying entry, numbered from 1 in each
    window; every line ends with a line feed. *)
Theorem export_gate (st : State) :
  ((exists w, w ∈ windows st /\ Pending ∈ entries w) ->
     exportCSV absToHMS st = [UiAlert PendingRemain]
     /\ exportDetailCSV absToHMS st = [UiAlert PendingRemain])
  /\ ((forall w, w ∈ windows st -> Pending ∉ entries w) ->
        exportCSV absToHMS st =
          [UiDownload (fileStem st +:+ ".csv")
             (linesText
                (summaryHeader :: (summaryRow absToHMS st <$> windows st)))]
        /\ exportDetailCSV absToHMS st =
             [UiDownload (fileStem st +:+ "_detail.csv")
                (linesText
                   (detailHeader ::
                    concat ((fun w =>
                               imap (fun k e => detailRow absToHMS st w (S k) e)
                                 (filter classified (entries w)))
                              <$> windows st)))]).
Proof.
  unfold exportCSV, exportDetailCSV. split.
  - intros Hp. by rewrite summaryRows_pending, detailRows_pending.
  - intros Hclean.
    rewrite summaryRows_clean, detailRows_rows by done.
    cbn [app]. by rewrite !blobText_lines.
Qed.

End ExportGate.

Lemma export_gate_witness :
  (exportCSV (fun _ => EmptyString) sessionWithPending = [UiAlert PendingRemain]
   /\ exportDetailCSV (fun _ => EmptyString) sessionWithPending
      = [UiAlert PendingRemain])
  /\ exportCSV (fun _ => EmptyString) sessionClassified =
       [UiDownload "cam.csv"
          ("video_id,window_start,window_end,total_unique,moving_count,staying_count,notes"
           +:+ str newline +:+ "cam,00:00,05:00,2,1,1,"
           +:+ str newline +:+ "cam,05:00,10:00,1,0,1,"
           +:+ str dquote +:+ "a,b" +:+ str dquote
           +:+ str newline)]
  /\ exportDetailCSV (fun _ => EmptyString) sessionClassified =
       [UiDownload "cam_detail.csv"
          ("video_id,window_start,person_local_id,visible_sec,behavior,remarks"
           +:+ str newline +:+ "cam,00:00,p001,,moving,"
           +:+ str newline +:+ "cam,00:00,p002,,staying,"
           +:+ str newline +:+ "cam,05:00,p001,,staying,"
           +:+ str newline)].
Proof.
  assert (forall w, w ∈ windows sessionClassified -> Pending ∉ entries w) as Hclean.
  { intros w Hw. simpl in Hw. rewrite !elem_of_cons, elem_of_nil in Hw.
    destruct Hw as [-> | [-> | []]]; simpl; rewrite !elem_of_cons, elem_of_nil;
      intuition discriminate. }
  split; [|split].
  - apply (proj1 (export_gate (fun _ => EmptyString) sessionWithPending)).
    exists (mkWindow 300 600 [Moving; Pending] EmptyString []).
    split; simpl; rewrite !elem_of_cons; auto.
  - exact (eq_trans
             (proj1 (proj2 (export_gate (fun _ => EmptyString) sessionClassified)
                       Hclean))
             eq_refl).
  - exact (eq_trans
             (proj2 (proj2 (export_gate (fun _ => EmptyString) sessionClassified)
                       Hclean))
             eq_refl).
Defined.

(** ** Multi-file ingestion *)

Lemma insertMeta_Permutation m l : insertMeta m l ≡ₚ m :: l.
Proof.
  induction l as [|h t IH]; simpl; [done|].
  case_decide; [done|]. rewrite IH. apply Permutation_swap.
Qed.

Lemma sortMetas_from_Permutation l acc :
  fold_left (fun acc m => insertMeta m acc) l acc ≡ₚ acc ++ l.
Proof.
  revert acc. induction l as [|m l IH]; intros acc; simpl.
  - by rewrite app_nil_r.
  - rewrite IH, insertMeta_Permutation. by rewrite <- Permutation_middle.
Qed.

Lemma sortMetas_Permutation l : sortMetas l ≡ₚ l.
Proof. apply (sortMetas_from_Permutation l []). Qed.

Lemma insertMeta_sorted m l :
  StronglySorted byStart l -> StronglySorted byStart (insertMeta m l).
Proof.
  induction 1 as [|h t Ht IH Hh]; simpl; [by repeat constructor|].
  case_decide as Hlt.
  - constructor; [by constructor|]. constructor; [unfold byStart; lia|].
    eapply Forall_impl; [exact Hh|]. unfold byStart. intros x Hx. lia.
  - constructor; [done|]. rewrite insertMeta_Permutation.
    constructor; [unfold byStart; lia|done].
Qed.

Lemma sortMetas_from_sorted l acc :
  StronglySorted byStart acc ->
  StronglySorted byStart (fold_left (fun acc m => insertMeta m acc) l acc).
Proof.
  revert acc. induction l as [|m l IH]; intros acc Hacc; simpl; [done|].
  by apply IH, insertMeta_sorted.
Qed.

Lemma sortMetas_sorted l : StronglySorted byStart (sortMetas l).
Proof. apply sortMetas_from_sorted. constructor. Qed.

Lemma sorted_head_least l x :
  StronglySorted byStart l -> head l = Some x -> forall m, m ∈ l -> byStart x m.
Proof.
  intros Hs Hh m Hin. destruct Hs as [|h t Ht Hall]; [done|].
  injection Hh as ->. apply elem_of_cons in Hin as [->|Hin].
  - unfold byStart. lia.
  - rewrite Forall_forall in Hall. by apply Hall.
Qed.

Lemma sorted_last_greatest l x :
  StronglySorted byStart l -> last l = Some x -> forall m, m ∈ l -> byStart m x.
Proof.
  induction 1 as [|h t Ht IH Hall]; [done|].
  intros Hl m Hin. destruct t as [|h' t'].
  - injection Hl as ->. apply list_elem_of_singleton in Hin as ->.
    unfold byStart. lia.
  - change (last (h :: h' :: t')) with (last (h' :: t')) in Hl.
    apply elem_of_cons in Hin as [->|Hin]; [|by apply IH].
    rewrite Forall_forall in Hall. apply Hall. by apply last_Some_elem_of.
Qed.

Section IngestFacts.
Context (parseP : string -> option ParsedName) (trim : string -> string).

Lemma collectMetas_fails files metas :
  (exists f, f ∈ files /\ parseP f = None) <->
  exists name, collectMetas parseP files metas = inr name.
Proof.
  revert metas. induction files as [|f files IH]; intros metas; simpl.
  - split; [by intros (f & Hin%elem_of_nil & _)|by intros [name ?]].
  - destruct (parseP f) as [i|] eqn:Hf.
    + rewrite <- IH. split.
      * intros (f' & [->|Hin]%elem_of_cons & Hn); [congruence|by exists f'].
      * intros (f' & Hin & Hn). exists f'. split; [by right|done].
    + split; [by exists f|]. intros _. exists f. split; [by left|done].
Qed.

Lemma collectMetas_rejected files metas name :
  collectMetas parseP files metas = inr name ->
  name ∈ files /\ parseP name = None.
Proof.
  revert metas. induction files as [|f files IH]; intros metas; simpl; [done|].
  destruct (parseP f) eqn:Hf.
  - intros [Hin Hn]%IH. split; [by right|done].
  - intros [= ->]. split; [by left|done].
Qed.

(** The handler takes the multi-file branch on more than one file. *)
Lemma fiChange_multi files field confirmOverwrite form st :
  (1 < length files)%nat ->
  fiChange parseP trim files field confirmOverwrite form st =
    (let '(st', form', ui) :=
       fiChangeMulti parseP trim files field confirmOverwrite form st in
     (st', form', ShownUi <$> ui)).
Proof.
  intros Hlen. unfold fiChange. destruct files as [|f files]; [simpl in Hlen; lia|].
  by rewrite decide_True.
Qed.

(** A selection of one file goes to the single-file part. *)
Lemma fiChange_one_file name field confirmOverwrite form st :
  fiChange parseP trim [name] field confirmOverwrite form st =
    fiChangeSingle parseP trim name field confirmOverwrite form st.
Proof. done. Qed.

(** X1: a selection of more than one file with a name that [parseP]
    rejects is refused as a whole: the state and the form come back
    unchanged, with the alert naming a rejected file. *)
Lemma fiChangeMulti_rejects_batch files field confirmOverwrite form st :
  (1 < length files)%nat ->
  (exists f, f ∈ files /\ parseP f = None) ->
  exists name,
    name ∈ files /\ parseP name = None
    /\ fiChange parseP trim files field confirmOverwrite form st =
         (st, form, [ShownUi (UiAlert (BadFileName name))]).
Proof.
  intros Hlen Hbad.
  apply (collectMetas_fails files []) in Hbad as [name Hname].
  exists name. destruct (collectMetas_rejected _ _ _ Hname) as [Hin Hnone].
  split; [done|]. split; [done|].
  rewrite fiChange_multi by done. unfold fiChangeMulti. by rewrite Hname.
Qed.

Lemma collectMetas_parsed files acc metas :
  collectMetas parseP files acc = inl metas ->
  exists ms, metas = acc ++ ms
    /\ Forall2 (fun f m => file m = f /\ parseP f = Some (info m)) files ms.
Proof.
  revert acc. induction files as [|f files IH]; intros acc; simpl.
  - intros [= <-]. exists []. by rewrite app_nil_r.
  - destruct (parseP f) as [i|] eqn:Hf; [|done].
    intros (ms & -> & Hms)%IH. exists (mkMeta f i :: ms).
    rewrite <- app_assoc. split; [done|]. by constructor.
Qed.

(** X2: a selection of more than one file whose names all parse, with no
    windows to overwrite or with the overwrite confirmed: the files are
    sorted by start time, the coverage becomes the list of their intervals
    in that order, and wall-clock generation runs from the earliest start
    to the end of the file that starts last. *)
Lemma fiChangeMulti_accepts files field confirmOverwrite form st :
  (1 < length files)%nat ->
  (forall f, f ∈ files -> parseP f <> None) ->
  windows st = [] \/ confirmOverwrite = true ->
  exists metas first final,
    Forall2 (fun f m => file m = f /\ parseP f = Some (info m)) files metas
    /\ sortMetas metas ≡ₚ metas
    /\ StronglySorted byStart (sortMetas metas)
    /\ head (sortMetas metas) = Some first
    /\ last (sortMetas metas) = Some final
    /\ (forall m, m ∈ metas -> byStart first m /\ byStart m final)
    /\ let vidValue :=
         if decide (videoIdField form = EmptyString)
         then stripExt (file first) +:+ "_set" else videoIdField form in
       let st1 := mkState (videoId st) (windowSeconds st) (windows st)
                    (currentIndex st) (absOrigin st)
                    (Some (metaInterval <$> sortMetas metas)) in
       let b := buildWindowsFromAbsRange (trim vidValue)
                  (pStartAbs (info first)) (pEndAbs (info final))
                  (minutesOf field) st1 in
       fiChange parseP trim files field confirmOverwrite form st =
         (b.1.1,
          mkForm vidValue (startStr (info first)) (endStr (info final)),
          ShownUi <$>
            UiStatus (MultiLoaded (length files) (pStartAbs (info first))
                        (pEndAbs (info final))) :: b.1.2).
Proof.
  intros Hmany Hall Hgo.
  assert (files <> []) as Hne by (intros ->; simpl in Hmany; lia).
  destruct (collectMetas parseP files []) as [metas|name] eqn:Hc.
  2: { destruct (proj2 (collectMetas_fails files [])) as (f & Hin & Hf); [by exists name|].
       by destruct (Hall f Hin). }
  destruct (collectMetas_parsed _ _ _ Hc) as (ms & -> & Hms). simpl in *.
  pose proof (sortMetas_Permutation ms) as Hperm.
  pose proof (sortMetas_sorted ms) as Hsorted.
  assert (length (sortMetas ms) = length files) as Hlen.
  { rewrite Hperm. symmetry. by eapply Forall2_length. }
  destruct (sortMetas ms) as [|first rest] eqn:Hsort.
  { destruct files; [done|simpl in Hlen; lia]. }
  destruct (last (first :: rest)) as [final|] eqn:Hlast.
  2: { by apply last_None in Hlast. }
  exists ms, first, final. rewrite <- Hsort in *.
  assert (head (sortMetas ms) = Some first) as Hhead by by rewrite Hsort.
  split; [done|]. split; [done|]. split; [done|]. split; [done|]. split; [done|].
  split.
  { intros m Hin. rewrite <- Hperm in Hin. split.
    - by eapply sorted_head_least.
    - by eapply sorted_last_greatest. }
  rewrite fiChange_multi by done.
  unfold fiChangeMulti. rewrite Hc, Hhead, Hlast.
  assert (bool_decide (windows st <> []) && negb confirmOverwrite = false) as ->.
  { destruct Hgo as [Hw| ->]; [|by rewrite andb_false_r].
    by rewrite bool_decide_eq_false_2 by (by intros Hn). }
  cbv zeta.
  by destruct (buildWindowsFromAbsRange _ _ _ _ _) as [[st2 ui] ret].
Qed.

(** The end of the range is the latest end when the file that starts last
    also ends last, in particular when no file lies inside another. *)
Lemma end_of_last_start_is_latest metas final :
  last (sortMetas metas) = Some final ->
  (forall m, m ∈ metas -> byStart m final -> pEndAbs (info m) <= pEndAbs (info final)) ->
  forall m, m ∈ metas -> pEndAbs (info m) <= pEndAbs (info final).
Proof.
  intros Hlast Hmono m Hin. apply Hmono; [done|].
  eapply sorted_last_greatest; [apply sortMetas_sorted|done|].
  by rewrite sortMetas_Permutation.
Qed.

(** C7, the range handed to wall-clock generation: two files of which the
    second lies inside the first. The handler sorts by start time and takes
    the end of the last file, here 09:20, as the end of the range; the
    latest end among the files is 10:00. *)
Theorem multi_file_end_is_end_of_last_start
    (first second : ParsedName) :
  parseP "P240101_090000_100000.mp4" = Some first ->
  parseP "P240101_091000_092000.mp4" = Some second ->
  trim "cam" = "cam" ->
  pStartAbs first = 1704099600 -> pEndAbs first = 1704103200 ->
  pStartAbs second = 1704100200 -> pEndAbs second = 1704100800 ->
  let st := mkState EmptyString 300 [] 0%nat None None in
  let cov := [mkCov 1704099600 1704103200; mkCov 1704100200 1704100800] in
  let st1 := mkState EmptyString 300 [] 0%nat None (Some cov) in
  let r := fiChangeMulti parseP trim
             ["P240101_090000_100000.mp4"; "P240101_091000_092000.mp4"]
             (Some 5) true (mkForm "cam" EmptyString EmptyString) st in
  r.1.1 = (buildWindowsFromAbsRange "cam" 1704099600 1704100800 5 st1).1.1
  /\ length (windows r.1.1) = 4%nat
  /\ length (windows
               (buildWindowsFromAbsRange "cam" 1704099600 1704103200 5 st1).1.1)
     = 12%nat.
Proof.
  intros Hf Hs Htrim Hfs Hfe Hss Hse st cov st1 r.
  destruct first as [fs fe fss fes], second as [ss se sss ses].
  simpl in Hfs, Hfe, Hss, Hse. subst fs fe ss se.
  assert (r.1.1 = (buildWindowsFromAbsRange "cam" 1704099600 1704100800 5 st1).1.1)
    as Hr.
  { unfold r, fiChangeMulti. cbn [collectMetas]. rewrite Hf, Hs.
    cbn -[buildWindowsFromAbsRange].
    rewrite (decide_False (P := 1704100200 < 1704099600)) by lia.
    cbn -[buildWindowsFromAbsRange].
    rewrite !(decide_False (P := "cam" = EmptyString)) by done.
    rewrite Htrim. change (minutesOf (Some 5)) with 5.
    unfold st1, cov, metaInterval. cbn -[buildWindowsFromAbsRange].
    by destruct (buildWindowsFromAbsRange "cam" 1704099600 1704100800 5 _)
      as [[st2 ui] ret]. }
  split; [done|]. split.
  - rewrite Hr. vm_compute. reflexivity.
  - vm_compute. reflexivity.
Qed.

End IngestFacts.

Lemma multi_file_end_is_end_of_last_start_witness :
  length (windows
            (fiChangeMulti fixtureParseP (fun s => s)
               ["P240101_090000_100000.mp4"; "P240101_091000_092000.mp4"]
               (Some 5) true (mkForm "cam" EmptyString EmptyString)
               (mkState EmptyString 300 [] 0%nat None None)).1.1)
  = 4%nat.
Proof.
  apply (multi_file_end_is_end_of_last_start fixtureParseP (fun s => s)
           (mkParsed 1704099600 1704103200 "09:00:00" "10:00:00")
           (mkParsed 1704100200 1704100800 "09:10:00" "09:20:00"));
    reflexivity.
Defined.

Lemma fiChangeMulti_rejects_batch_witness :
  exists name,
    fiChange fixtureParseP (fun s => s)
      ["P240101_090000_100000.mp4"; "notes.txt"] (Some 5) true
      (mkForm "cam" EmptyString EmptyString)
      (mkState "old" 300 [] 0%nat None None)
    = (mkState "old" 300 [] 0%nat None None,
       mkForm "cam" EmptyString EmptyString,
       [ShownUi (UiAlert (BadFileName name))]).
Proof.
  destruct (fiChangeMulti_rejects_batch fixtureParseP (fun s => s)
              ["P240101_090000_100000.mp4"; "notes.txt"] (Some 5) true
              (mkForm "cam" EmptyString EmptyString)
              (mkState "old" 300 [] 0%nat None None))
    as (name & _ & _ & Hr).
  - simpl. lia.
  - exists "notes.txt". split; [|reflexivity].
    apply list_elem_of_further, list_elem_of_here.
  - by exists name.
Defined.

Lemma fiChangeMulti_accepts_witness :
  exists metas first final,
    head (sortMetas metas) = Some first /\ last (sortMetas metas) = Some final
    /\ file first = "P240101_090000_100000.mp4"
    /\ file final = "P240101_091000_092000.mp4".
Proof.
  destruct (fiChangeMulti_accepts fixtureParseP (fun s => s)
              ["P240101_091000_092000.mp4"; "P240101_090000_100000.mp4"]
              (Some 5) true (mkForm "cam" EmptyString EmptyString)
              (mkState EmptyString 300 [] 0%nat None None))
    as (metas & first & final & Hms & _ & _ & Hh & Hl & _).
  - simpl. lia.
  - intros f Hin. rewrite !elem_of_cons, elem_of_nil in Hin.
    destruct Hin as [-> | [-> | []]]; discriminate.
  - by right.
  - exists metas, first, final. split; [done|]. split; [done|].
    apply Forall2_cons_inv_l in Hms as (m1 & ms1 & [Hf1 Hp1] & Hms & ->).
    apply Forall2_cons_inv_l in Hms as (m2 & ms2 & [Hf2 Hp2] & Hms & ->).
    apply Forall2_nil_inv_l in Hms as ->.
    destruct m1 as [f1 i1], m2 as [f2 i2]. simpl in *. subst f1 f2.
    injection Hp1 as <-. injection Hp2 as <-.
    vm_compute in Hh, Hl. injection Hh as <-. injection Hl as <-. done.
Defined.

(** * Further properties *)

(** ** Several commands, several undos *)

Lemma undo_exact_step op w : undoExact op w -> (undo (run op w).1).1 = w.
Proof.
  intros [Hok Hex]. destruct op as [| |k|k].
  - apply undo_addPerson.
  - simpl in *. unfold removePerson in Hok.
    destruct (findLast Pending (entries w)) as [i|] eqn:Hs; [|done].
    rewrite (undo_removePerson _ _ Hs).
    rewrite (proj2 (delete_last_pending_snoc _ _ Hs) Hex). by destruct w.
  - destruct (run_ok_classify _ _ Hok) as (i & Hi & ->). by apply undo_assign.
  - destruct (run_ok_declassify _ _ Hok) as (i & Hi & ->). by apply undo_assign.
Qed.

(** X4: after any sequence of successful commands in which every
    [RemovePending] met a list ending with a pending entry, pressing undo
    once per command gives back the window the sequence started from,
    entries and history alike. *)
Theorem undo_all_restores (ops : list Command) (w : Window) :
  exactTrace ops w -> undoTimes (length ops) (runAll ops w) = w.
Proof.
  revert w. induction ops as [|op ops IH]; intros w; [done|].
  intros [Hop Hrest]. simpl. unfold undoTimes in *. rewrite IH by done.
  by apply undo_exact_step.
Qed.

Lemma undo_all_restores_witness :
  let w := mkWindow 0 300 [Moving] EmptyString [OpAdd; OpAssign 0 Pending Moving] in
  let ops := [AddPending; AddPending; Classify KStaying; Declassify KMoving;
              AddPending; RemovePending] in
  entries (runAll ops w) = [Pending; Pending; Staying]
  /\ undoTimes 6 (runAll ops w) = w.
Proof.
  split; [reflexivity|].
  apply (undo_all_restores
           [AddPending; AddPending; Classify KStaying; Declassify KMoving;
            AddPending; RemovePending]
           (mkWindow 0 300 [Moving] EmptyString [OpAdd; OpAssign 0 Pending Moving])).
  repeat split.
Defined.

(** Without the condition on [RemovePending] the undos can leave an entry
    that was never there: add, add, classify, remove and four undos on a
    fresh window end with one moving entry. *)
Example undo_through_remove_leaves_entry :
  entries (undoTimes 4
             (runAll [AddPending; AddPending; Classify KMoving; RemovePending]
                (freshWindow 0 300)))
  = [Moving].
Proof. reflexivity. Qed.

(** ** Counters *)

Lemma countKind_app k l1 l2 :
  countKind k (l1 ++ l2) = (countKind k l1 + countKind k l2)%nat.
Proof. unfold countKind. by rewrite filter_app, length_app. Qed.

Lemma countKind_cons k e l : countKind k (e :: l) = (same e k + countKind k l)%nat.
Proof.
  unfold countKind, same. rewrite filter_cons. by destruct (decide (e = k)).
Qed.

Lemma countKind_delete k l i y :
  l !! i = Some y ->
  (countKind k (delete i l) + same y k = countKind k l)%nat.
Proof.
  intros Hi. rewrite <- (take_drop_middle l i y Hi) at 2.
  rewrite delete_take_drop, !countKind_app, countKind_cons. lia.
Qed.

Lemma countKind_insert k l i x y :
  l !! i = Some y ->
  (countKind k (<[i:=x]> l) + same y k = countKind k l + same x k)%nat.
Proof.
  intros Hi. rewrite <- (take_drop_middle l i y Hi) at 2.
  rewrite insert_take_drop by (by eapply lookup_lt_Some).
  rewrite !countKind_app, !countKind_cons. lia.
Qed.

Lemma same_sym k e : same k e = same e k.
Proof. unfold same. destruct (decide (k = e)), (decide (e = k)); congruence. Qed.

(** X5: a successful command changes the counters by what it takes and
    gives: [AddPending] adds one pending, [RemovePending] takes one,
    [Classify k] takes one pending and gives one [k], [Declassify k] the
    reverse; every other counter keeps its value, and the history grows by
    one entry. *)
Theorem command_counters (w : Window) (op : Command) (k : Entry) :
  (run op w).2 = None ->
  (countKind k (entries (run op w).1) + tally k (taken op)
   = countKind k (entries w) + tally k (given op))%nat
  /\ length (history (run op w).1) = S (length (history w)).
Proof.
  intros Hok. destruct op as [| |t|s]; simpl in *.
  - rewrite countKind_app, countKind_cons, length_app, same_sym. simpl.
    change (countKind k []) with 0%nat. lia.
  - unfold removePerson in *.
    destruct (findLast Pending (entries w)) as [i|] eqn:Hs; [|done].
    destruct (findLast_Some _ _ _ Hs) as [Hi _]. simpl.
    rewrite length_app, same_sym. simpl.
    pose proof (countKind_delete k _ _ _ Hi). lia.
  - unfold assignFromPending in *.
    destruct (findLast Pending (entries w)) as [i|] eqn:Hs; [|done].
    destruct (findLast_Some _ _ _ Hs) as [Hi _]. simpl.
    rewrite length_app, !(same_sym k). simpl.
    pose proof (countKind_insert k _ _ (kindEntry t) _ Hi). lia.
  - unfold revertToPending in *.
    destruct (findLast (kindEntry s) (entries w)) as [i|] eqn:Hs; [|done].
    destruct (findLast_Some _ _ _ Hs) as [Hi _]. simpl.
    rewrite length_app, !(same_sym k). simpl.
    pose proof (countKind_insert k _ _ Pending _ Hi). lia.
Qed.

Lemma command_counters_witness :
  let w := mkWindow 0 300 [Pending; Moving; Pending] EmptyString [] in
  (run (Classify KStaying) w).2 = None
  /\ (countKind Pending (entries (run (Classify KStaying) w).1) + 1
      = countKind Pending (entries w) + 0)%nat.
Proof.
  split; [reflexivity|].
  apply (command_counters
           (mkWindow 0 300 [Pending; Moving; Pending] EmptyString [])
           (Classify KStaying) Pending).
  reflexivity.
Defined.

(** ** Clearing a window *)

(** X6: [clearCurrent] empties the entries and the notes and keeps the
    history, so an undo after it still pops the old log and applies it to
    the emptied list: undoing an add changes nothing, undoing a remove puts
    a pending entry back, and undoing an assignment at index [i] writes
    the old symbol at [i] behind [i] holes. *)
Theorem undo_after_clear (w : Window) :
  entries (clearCurrent w) = []
  /\ notes (clearCurrent w) = EmptyString
  /\ history (clearCurrent w) = history w
  /\ forall h lastOp, pop (history w) = Some (h, lastOp) ->
       history (undo (clearCurrent w)).1 = h
       /\ entries (undo (clearCurrent w)).1 =
            match lastOp with
            | OpAdd => []
            | OpRemove => [Pending]
            | OpAssign i from _ => replicate i Hole ++ [from]
            end.
Proof.
  split; [done|]. split; [done|]. split; [done|].
  intros h lastOp Hpop. unfold undo. simpl. rewrite Hpop. simpl.
  split; [done|]. destruct lastOp as [| |i from to]; try done.
  unfold arraySet. simpl. by rewrite Nat.sub_0_r.
Qed.

Lemma undo_after_clear_witness :
  entries (undo (clearCurrent
                   (mkWindow 0 300 [Moving; Pending; Staying] EmptyString
                      [OpAdd; OpAdd; OpAdd; OpAssign 0 Pending Moving;
                       OpAssign 2 Pending Staying]))).1
  = [Hole; Hole; Pending].
Proof.
  apply (proj2 (proj2 (proj2 (proj2
           (undo_after_clear
              (mkWindow 0 300 [Moving; Pending; Staying] EmptyString
                 [OpAdd; OpAdd; OpAdd; OpAssign 0 Pending Moving;
                  OpAssign 2 Pending Staying]))))
           [OpAdd; OpAdd; OpAdd; OpAssign 0 Pending Moving]
           (OpAssign 2 Pending Staying) eq_refl)).
Defined.

(** ** Navigation *)

(** X7: with windows present, [nextWindow] and [prevWindow] leave the
    window list alone and always land on an existing window, wherever the
    index stood before; [nextWindow] moves one forward unless the last
    window is current, and [prevWindow] after such a move returns to the
    old state. With no window both do nothing. *)
Theorem navigation_stays_in_range (st : State) :
  (windows st = [] -> nextWindow st = st /\ prevWindow st = st)
  /\ (windows st <> [] ->
        windows (nextWindow st) = windows st
        /\ windows (prevWindow st) = windows st
        /\ is_Some (windows st !! currentIndex (nextWindow st))
        /\ is_Some (windows st !! currentIndex (prevWindow st))
        /\ ((currentIndex st + 1 < length (windows st))%nat ->
              currentIndex (nextWindow st) = (currentIndex st + 1)%nat
              /\ prevWindow (nextWindow st) = st)
        /\ ((length (windows st) <= currentIndex st + 1)%nat ->
              currentIndex (nextWindow st) = (length (windows st) - 1)%nat)).
Proof.
  unfold nextWindow, prevWindow, renderActive. split.
  - intros Hnil. by rewrite !decide_True.
  - intros Hne. destruct st as [v secs ws i o c]; simpl in *.
    repeat (rewrite decide_False by done; simpl).
    assert (0 < length ws)%nat by (destruct ws; [done|simpl; lia]).
    split; [done|]. split; [done|].
    split; [apply lookup_lt_is_Some; lia|].
    split; [apply lookup_lt_is_Some; lia|].
    split; [|intros Hge; lia].
    intros Hlt. split; [lia|].
    repeat (rewrite decide_False by done; simpl).
    unfold set_currentIndex; simpl. f_equal. lia.
Qed.

Lemma navigation_stays_in_range_witness :
  let st := mkState "cam" 300 [freshWindow 0 300; freshWindow 300 600] 7%nat
              None None in
  currentIndex (nextWindow st) = 1%nat /\ currentIndex (prevWindow st) = 1%nat
  /\ is_Some (windows st !! currentIndex (nextWindow st)).
Proof.
  split; [reflexivity|]. split; [reflexivity|].
  apply (proj2 (navigation_stays_in_range
                  (mkState "cam" 300 [freshWindow 0 300; freshWindow 300 600]
                     7%nat None None))).
  discriminate.
Defined.

(** ** More coverage, more windows *)

Lemma isCovered_more cov extra a b :
  isCovered cov a b = true -> isCovered (cov ++ extra) a b = true.
Proof.
  rewrite !isCovered_true. intros (c & Hin & Hc). exists c.
  split; [|done]. apply elem_of_app. by left.
Qed.

(** X8: for the same requested range and step, a coverage list extended by
    further intervals yields every window the shorter list yielded: adding
    files never drops a window. *)
Theorem more_coverage_keeps_windows vid sAbs eAbs minutes st cov extra :
  vid <> EmptyString ->
  coverage st = Some cov ->
  forall w,
    w ∈ windows (buildWindowsFromAbsRange vid sAbs eAbs minutes st).1.1 ->
    w ∈ windows (buildWindowsFromAbsRange vid sAbs eAbs minutes
                   (set_coverage (Some (cov ++ extra)) st)).1.1.
Proof.
  intros Hvid Hcov w. rewrite !buildWindowsFromAbsRange_ok by done. simpl.
  rewrite Hcov. simpl. rewrite !elem_of_gridLoop.
  intros (a & Ha & Hc & ->). exists a. split; [done|]. split; [|done].
  by apply isCovered_more.
Qed.

Lemma more_coverage_keeps_windows_witness :
  let st := mkState EmptyString 300 [] 0%nat None (Some [mkCov 1704099600 1704101520]) in
  freshWindow 0 300
    ∈ windows (buildWindowsFromAbsRange "cam" 1704099600 1704103200 5
                 (set_coverage
                    (Some ([mkCov 1704099600 1704101520] ++ [mkCov 1704101520 1704103200]))
                    st)).1.1.
Proof.
  apply (more_coverage_keeps_windows "cam" 1704099600 1704103200 5
           (mkState EmptyString 300 [] 0%nat None (Some [mkCov 1704099600 1704101520]))
           [mkCov 1704099600 1704101520] [mkCov 1704101520 1704103200]).
  - discriminate.
  - reflexivity.
  - vm_compute. apply list_elem_of_here.
Defined.

(** ** Single-file ingestion *)

Lemma alignDown_on_grid step ts :
  0 < step -> (~ (alignDown step ts < ts) <-> (step | ts)).
Proof.
  intros Hs. destruct (alignDown_spec step ts Hs) as [Hd Hb]. split.
  - intros Hn. replace ts with (alignDown step ts) by lia. done.
  - intros Hdiv. pose proof (alignDown_greatest step ts ts Hs Hdiv). lia.
Qed.

Lemma alignUp_on_grid step ts :
  0 < step -> (~ (ts < alignUp step ts) <-> (step | ts)).
Proof.
  intros Hs. destruct (alignUp_spec step ts Hs) as [Hd Hb]. split.
  - intros Hn. replace ts with (alignUp step ts) by lia. done.
  - intros Hdiv. pose proof (alignUp_least step ts ts Hs Hdiv). lia.
Qed.

Section SingleFileFacts.
Context (parseP : string -> option ParsedName) (trim : string -> string).

(** X9: a single file whose name parses, with a non-blank base name and no
    windows to overwrite (or the overwrite confirmed): the coverage
    becomes the file's own interval, the origin its start, and the windows
    are all on-grid slots between the aligned start and the aligned end of
    the file. The last status is the on-grid-only warning exactly when the
    start or the end is off the grid; it names the head slot exactly when
    the start is off the grid and the tail slot exactly when the end is. *)
Theorem single_file_windows name pm field confirmOverwrite form st :
  parseP name = Some pm ->
  trim (stripExt name) <> EmptyString ->
  windows st = [] \/ confirmOverwrite = true ->
  let step := minutesOf field * 60 in
  let sAbs := pStartAbs pm in
  let eAbs := pEndAbs pm in
  let r := fiChangeSingle parseP trim name field confirmOverwrite form st in
  coverage r.1.1 = Some [mkCov sAbs eAbs]
  /\ absOrigin r.1.1 = Some sAbs
  /\ windows r.1.1 =
       (fun a => freshWindow (a - sAbs) (a + step - sAbs))
         <$> gridStarts step (alignUp step sAbs) (alignDown step eAbs)
  /\ r.1.2 = mkForm (stripExt name) (startStr pm) (endStr pm)
  /\ exists head tail,
       last r.2 =
         Some (ShownFile (match head, tail with
                          | None, None => GeneratedFromName
                          | _, _ => OnGridOnly head tail
                          end))
       /\ (head = None <-> (step | sAbs))
       /\ (tail = None <-> (step | eAbs))
       /\ (forall slot, head = Some slot ->
             slot = (alignDown step sAbs, alignDown step sAbs + step))
       /\ (forall slot, tail = Some slot ->
             slot = (alignUp step eAbs - step, alignUp step eAbs)).
Proof.
  intros Hp Hvid Hgo step sAbs eAbs r.
  assert (0 < step) as Hs by apply minutesOf_step_pos.
  assert (Z.max 1 (minutesOf field) * 60 = step) as Hstep.
  { unfold step, minutesOf. lia. }
  unfold r, fiChangeSingle. rewrite Hp.
  assert (bool_decide (windows st <> []) && negb confirmOverwrite = false) as ->.
  { destruct Hgo as [Hw| ->]; [|by rewrite andb_false_r].
    by rewrite bool_decide_eq_false_2 by (by intros Hn). }
  rewrite buildWindowsFromAbsRange_ok by done. cbv zeta.
  cbn [fst snd coverage absOrigin windows set_coverage coverageOr].
  rewrite !gridLoop_explicit, !Hstep. fold step sAbs eAbs.
  split; [done|]. split; [done|]. split.
  { f_equal. apply filter_all, Forall_forall. intros a Ha.
    by apply (isCovered_whole_range step sAbs eAbs). }
  split; [done|].
  pose proof (alignDown_on_grid step sAbs Hs) as Hhead.
  pose proof (alignUp_on_grid step eAbs Hs) as Htail.
  exists (if bool_decide (alignDown step sAbs < sAbs)
          then Some (alignDown step sAbs, alignDown step sAbs + step) else None),
         (if bool_decide (eAbs < alignUp step eAbs)
          then Some (alignUp step eAbs - step, alignUp step eAbs) else None).
  rewrite !app_assoc, last_snoc.
  destruct (bool_decide_reflect (alignDown step sAbs < sAbs)) as [H1|H1];
    destruct (bool_decide_reflect (eAbs < alignUp step eAbs)) as [H2|H2]; simpl.
  all: split; [done|].
  all: split;
    [first [ split; [discriminate|intros Hd; by apply Hhead in Hd]
           | split; [intros _; by apply Hhead|done] ]|].
  all: split;
    [first [ split; [discriminate|intros Hd; by apply Htail in Hd]
           | split; [intros _; by apply Htail|done] ]|].
  all: split; intros slot Hslot; congruence.
Qed.

End SingleFileFacts.

Lemma single_file_windows_witness :
  let pm := mkParsed 1704099780 1704103080 "09:03:00" "09:58:00" in
  let r := fiChangeSingle (fun _ => Some pm) (fun s => s) "P240101_090300_095800.mp4"
             (Some 5) true (mkForm EmptyString EmptyString EmptyString)
             (mkState EmptyString 300 [] 0%nat None None) in
  length (windows r.1.1) = 10%nat
  /\ last r.2 = Some (ShownFile (OnGridOnly (Some (1704099600, 1704099900))
                                   (Some (1704102900, 1704103200)))).
Proof.
  destruct (single_file_windows
              (fun _ => Some (mkParsed 1704099780 1704103080 "09:03:00" "09:58:00"))
              (fun s => s) "P240101_090300_095800.mp4"
              (mkParsed 1704099780 1704103080 "09:03:00" "09:58:00")
              (Some 5) true (mkForm EmptyString EmptyString EmptyString)
              (mkState EmptyString 300 [] 0%nat None None))
    as (_ & _ & Hws & _); [reflexivity|discriminate|by right|].
  split; [rewrite Hws|]; vm_compute; reflexivity.
Defined.

(** ** Incremental addition *)

Section IncrementalFacts.
Context (parseP : string -> option ParsedName)
        (recomputeFromCoverage : Z -> State -> State * list Ui).

Lemma collectIntervals_fails files acc :
  (exists f, f ∈ files /\ parseP f = None) <->
  exists name, collectIntervals parseP files acc = inr name.
Proof.
  revert acc. induction files as [|f files IH]; intros acc; simpl.
  - split; [by intros (f & Hin%elem_of_nil & _)|by intros [name ?]].
  - destruct (parseP f) as [i|] eqn:Hf.
    + rewrite <- IH. split.
      * intros (f' & [->|Hin]%elem_of_cons & Hn); [congruence|by exists f'].
      * intros (f' & Hin & Hn). exists f'. split; [by right|done].
    + split; [by exists f|]. intros _. exists f. split; [by left|done].
Qed.

Lemma collectIntervals_parsed files acc newCov :
  collectIntervals parseP files acc = inl newCov ->
  exists cs, newCov = acc ++ cs
    /\ Forall2 (fun f c => exists pm, parseP f = Some pm
                  /\ c = mkCov (pStartAbs pm) (pEndAbs pm)) files cs.
Proof.
  revert acc. induction files as [|f files IH]; intros acc; simpl.
  - intros [= <-]. exists []. by rewrite app_nil_r.
  - destruct (parseP f) as [i|] eqn:Hf; [|done].
    intros (cs & -> & Hcs)%IH. exists (mkCov (pStartAbs i) (pEndAbs i) :: cs).
    rewrite <- app_assoc. split; [done|]. constructor; [|done]. by exists i.
Qed.

(** X10: the add-files handler is all-or-nothing and only appends. If
    [parseP] rejects a name the state comes back unchanged with the alert
    and nothing is recomputed; otherwise the recomputation runs on the
    state whose coverage is the old list (empty when none was stored)
    followed by one interval per file, in file order, with nothing merged
    or dropped. *)
Theorem faiChange_appends files field st :
  ((exists f, f ∈ files /\ parseP f = None) ->
     exists name,
       faiChange parseP recomputeFromCoverage files field st =
         (st, [ShownUi (UiAlert (BadFileName name))]))
  /\ (files <> [] -> (forall f, f ∈ files -> parseP f <> None) ->
        exists newCov,
          Forall2 (fun f c => exists pm, parseP f = Some pm
                     /\ c = mkCov (pStartAbs pm) (pEndAbs pm)) files newCov
          /\ let old := match coverage st with Some cov => cov | None => [] end in
             let r := recomputeFromCoverage (minutesOf field)
                        (set_coverage (Some (old ++ newCov)) st) in
             faiChange parseP recomputeFromCoverage files field st =
               (r.1, (ShownUi <$> r.2) ++ [ShownFile (FilesAdded (length files))])).
Proof.
  split.
  - intros Hbad. pose proof Hbad as (f & Hin & _).
    apply (collectIntervals_fails files []) in Hbad as [name Hname].
    exists name. unfold faiChange.
    rewrite decide_False by (intros ->; by apply elem_of_nil in Hin).
    by rewrite Hname.
  - intros Hne Hall. unfold faiChange. rewrite decide_False by done.
    destruct (collectIntervals parseP files []) as [newCov|name] eqn:Hc.
    + destruct (collectIntervals_parsed _ _ _ Hc) as (cs & -> & Hcs).
      exists cs. split; [done|]. simpl.
      by destruct (recomputeFromCoverage _ _) as [st2 ui].
    + destruct (proj2 (collectIntervals_fails files [])) as (f & Hin & Hf);
        [by exists name|]. by destruct (Hall f Hin).
Qed.

End IncrementalFacts.

Lemma faiChange_appends_witness :
  exists name,
    faiChange fixtureParseP (fun _ st => (st, []))
      ["P240101_090000_100000.mp4"; "notes.txt"] (Some 5)
      (mkState "cam" 300 [] 0%nat None (Some [mkCov 0 10]))
    = (mkState "cam" 300 [] 0%nat None (Some [mkCov 0 10]),
       [ShownUi (UiAlert (BadFileName name))]).
Proof.
  apply (proj1 (faiChange_appends fixtureParseP (fun _ st => (st, []))
                  ["P240101_090000_100000.mp4"; "notes.txt"] (Some 5)
                  (mkState "cam" 300 [] 0%nat None (Some [mkCov 0 10])))).
  exists "notes.txt". split; [|reflexivity].
  apply list_elem_of_further, list_elem_of_here.
Defined.

(** ** A counting button on a session without windows *)

Lemma relLoop_first step Hstep fin start :
  start < fin ->
  relLoop step Hstep fin start =
    freshWindow start (Z.min (start + step) fin)
      :: relLoop step Hstep fin (start + step).
Proof.
  intros Hlt. rewrite relLoop_equation_1 at 1.
  by destruct (decide (start < fin)).
Qed.

(** X11: on a session without windows a counting button first looks at the
    form. With a blank video id or [end <= start] it alerts and changes
    nothing. Otherwise it generates the manual windows and then acts on
    the first of them, which is fresh; the other windows stay fresh. *)
Theorem command_without_windows op inp st :
  windows st = [] ->
  (inVid inp = EmptyString \/ inEnd inp <= inStart inp ->
     command op inp st = (st, [UiAlert NoWindowsYet]))
  /\ (inVid inp <> EmptyString -> inStart inp < inEnd inp ->
        let step := minutesOf (inMinutes inp) * 60 in
        let w0 := freshWindow (inStart inp) (Z.min (inStart inp + step) (inEnd inp)) in
        let rest := relLoop step (minutesOf_step_pos (inMinutes inp)) (inEnd inp)
                      (inStart inp + step) in
        command op inp st =
          (mkState (inVid inp) step ((run op w0).1 :: rest) 0%nat None (coverage st),
           alertUi (run op w0).2)).
Proof.
  intros Hnil. unfold command, ensureWindowsOrGenerate.
  rewrite decide_False by (intros Hn; by apply Hn). split.
  - intros Hbad. rewrite decide_False; [done|]. intros [? ?]. destruct Hbad; [done|lia].
  - intros Hvid Hlt. rewrite decide_True by done.
    rewrite generateWindows_ok by done.
    unfold onCurrentWindow. cbn [windows currentIndex].
    rewrite relLoop_first by done. simpl.
    by destruct (run op _) as [w' a].
Qed.

Lemma command_without_windows_witness :
  (command AddPending (mkInputs "cam" 0 600 (Some 5))
     (mkState EmptyString 300 [] 0%nat None None)).1
  = mkState "cam" 300
      [mkWindow 0 300 [Pending] EmptyString [OpAdd]; freshWindow 300 600]
      0%nat None None.
Proof.
  rewrite (proj2 (command_without_windows AddPending (mkInputs "cam" 0 600 (Some 5))
                    (mkState EmptyString 300 [] 0%nat None None) eq_refl));
    [|discriminate|reflexivity].
  vm_compute. reflexivity.
Defined.

(** ** Times written and read back *)

Lemma digitValue_pretty_N_char d :
  (d < 10)%N -> digitValue (pretty_N_char d) = Some (Z.of_N d).
Proof.
  intros Hd.
  assert (d = 0 \/ d = 1 \/ d = 2 \/ d = 3 \/ d = 4 \/ d = 5 \/ d = 6 \/ d = 7
          \/ d = 8 \/ d = 9)%N as Hcases by lia.
  repeat (destruct Hcases as [->|Hcases]; [reflexivity|]). by subst d.
Qed.

Lemma digitsFrom_pretty_N_go x acc rest :
  (0 < x)%N -> default 0 acc = 0 ->
  digitsFrom acc (pretty_N_go x rest) = digitsFrom (Some (Z.of_N x)) rest.
Proof.
  revert acc rest. induction (N.lt_wf_0 x) as [x _ IH]. intros acc rest Hx Hacc.
  rewrite pretty_N_go_step by done.
  pose proof (N.mod_lt x 10 ltac:(done)) as Hmod.
  pose proof (N.div_mod x 10 ltac:(done)) as Hdm.
  destruct (decide (x `div` 10 = 0)%N) as [Hz|Hnz].
  - rewrite Hz, pretty_N_go_0. simpl.
    rewrite digitValue_pretty_N_char by done. rewrite Hacc. f_equal. f_equal. lia.
  - rewrite IH; [|apply N.div_lt; lia|lia|done]. simpl.
    rewrite digitValue_pretty_N_char by done. f_equal. f_equal. lia.
Qed.

Lemma allDigits_pretty_N_go x rest :
  allDigits rest -> allDigits (pretty_N_go x rest).
Proof.
  revert rest. induction (N.lt_wf_0 x) as [x _ IH]. intros rest Hrest.
  destruct (decide (x = 0)%N) as [->|Hx]; [by rewrite pretty_N_go_0|].
  rewrite pretty_N_go_step by lia. apply IH; [apply N.div_lt; lia|].
  split; [|done]. rewrite digitValue_pretty_N_char; [done|].
  by apply N.mod_lt.
Qed.

Lemma pretty_N_go_nonempty x rest :
  (0 < x)%N -> pretty_N_go x rest <> EmptyString.
Proof.
  revert rest. induction (N.lt_wf_0 x) as [x _ IH]. intros rest Hx.
  rewrite pretty_N_go_step by done.
  destruct (decide (x `div` 10 = 0)%N) as [Hz|Hnz].
  - by rewrite Hz, pretty_N_go_0.
  - apply IH; [apply N.div_lt; lia|by apply N.neq_0_lt_0].
Qed.

Lemma pretty_Z_nonneg n :
  0 <= n ->
  allDigits (pretty n) /\ pretty n <> EmptyString
  /\ forall acc, default 0 acc = 0 -> digitsFrom acc (pretty n) = Some n.
Proof.
  intros Hn. destruct n as [|p|p]; [|
    |lia].
  - split; [by split|]. split; [done|]. intros acc Hacc. simpl.
    by rewrite Hacc.
  - change (pretty (Z.pos p)) with (pretty_N_go (N.pos p) EmptyString).
    split; [by apply allDigits_pretty_N_go|].
    split; [by apply pretty_N_go_nonempty|].
    intros acc Hacc. by rewrite digitsFrom_pretty_N_go.
Qed.

Lemma allDigits_app s t : allDigits s -> allDigits t -> allDigits (s +:+ t).
Proof. induction s as [|c s IH]; simpl; [done|]. intros [? ?] ?. auto. Qed.

Lemma pad_digits n :
  0 <= n ->
  allDigits (pad n) /\ pad n <> EmptyString
  /\ digitsFrom None (pad n) = Some n.
Proof.
  intros Hn. destruct (pretty_Z_nonneg n Hn) as (Hd & Hne & Hval).
  unfold pad, padStart0.
  generalize (2 - String.length (pretty n))%nat. intros k.
  induction k as [|k IH]; simpl.
  - split; [done|]. split; [done|]. by apply Hval.
  - destruct IH as (IHd & _ & _). split; [by split|]. split; [done|].
    clear IHd. induction k as [|k IHk]; simpl; [by apply Hval|done].
Qed.

Lemma digit_is_no_space_or_sign c d :
  digitValue c = Some d ->
  isSpace c = false /\ c <> Ascii.ascii_of_nat 45 /\ c <> Ascii.ascii_of_nat 43
  /\ c <> colon.
Proof.
  intros Hd.
  assert (48 <= Ascii.nat_of_ascii c /\ Ascii.nat_of_ascii c <= 57)%nat as Hrange.
  { unfold digitValue in Hd. by case_bool_decide. }
  split; [apply bool_decide_eq_false_2; lia|].
  repeat split; intros ->; vm_compute in Hrange; lia.
Qed.

Lemma skipSpaces_digit c d r :
  digitValue c = Some d -> skipSpaces (String c r) = String c r.
Proof.
  intros Hd.
  assert (48 <= Ascii.nat_of_ascii c /\ Ascii.nat_of_ascii c <= 57)%nat as Hrange.
  { unfold digitValue in Hd. by case_bool_decide. }
  assert (isSpace c = false) as Hsp by (apply bool_decide_eq_false_2; lia).
  assert (forall c2, isSpace2 c c2 = false) as Hsp2.
  { intros c2. apply bool_decide_eq_false_2. lia. }
  assert (forall c2 c3, isSpace3 c c2 c3 = false) as Hsp3.
  { intros c2 c3. apply bool_decide_eq_false_2. lia. }
  cbn [skipSpaces]. rewrite Hsp.
  destruct r as [|c2 r2]; [done|]. rewrite Hsp2.
  destruct r2 as [|c3 r3]; [done|]. by rewrite Hsp3.
Qed.

Lemma parseInt10_digits s :
  allDigits s -> s <> EmptyString -> parseInt10 s = digitsFrom None s.
Proof.
  destruct s as [|c r]; [done|]. intros [[d Hd] _] _.
  destruct (digit_is_no_space_or_sign c d Hd) as (Hsp & Hminus & Hplus & _).
  unfold parseInt10. rewrite (skipSpaces_digit c d r Hd).
  by rewrite !decide_False by done.
Qed.

Lemma splitOn_digits s :
  allDigits s -> splitOn colon s = [s].
Proof.
  induction s as [|c s IH]; [done|]. intros [[d Hd] Hs]. simpl.
  rewrite decide_False by (by apply (digit_is_no_space_or_sign c d)).
  by rewrite IH.
Qed.

Lemma splitOn_digits_colon s t :
  allDigits s -> splitOn colon (s +:+ String colon t) = s :: splitOn colon t.
Proof.
  induction s as [|c s IH]; [done|]. intros [[d Hd] Hs]. simpl.
  rewrite decide_False by (by apply (digit_is_no_space_or_sign c d)).
  by rewrite IH.
Qed.

Lemma parseInt10_pad n : 0 <= n -> parseInt10 (pad n) = Some n.
Proof.
  intros Hn. destruct (pad_digits n Hn) as (Hd & Hne & Hval).
  by rewrite parseInt10_digits.
Qed.

Lemma append_nonempty s t : s <> EmptyString -> s +:+ t <> EmptyString.
Proof. by destruct s. Qed.

(** X12: [parseHMS] reads back what [secToHMS] wrote, for a whole number
    of seconds below 2^53 in size, the range in which the code's numbers
    are exact integers: the text of a number of seconds parses to that
    number, and the text of a negative number to 0, the value [secToHMS]
    clamps it to. The handlers rely on this when they put a duration into
    the end-time field and then generate windows from the form. *)
Theorem parseHMS_secToHMS (sec : Z) :
  - 2 ^ 53 < sec < 2 ^ 53 ->
  parseHMS (secToHMS sec) = Z.max 0 sec.
Proof.
  intros _. unfold secToHMS. set (s := Z.max 0 sec).
  assert (0 <= s) as Hs by lia.
  assert (0 <= s / 3600) as Hh by (apply Z.div_pos; lia).
  pose proof (Z.mod_pos_bound s 3600 ltac:(lia)) as Hm.
  assert (0 <= s `mod` 3600 / 60) as Hm' by (apply Z.div_pos; lia).
  pose proof (Z.mod_pos_bound s 60 ltac:(lia)) as Hr.
  destruct (pad_digits _ Hh) as (Hdh & Hnh & _).
  destruct (pad_digits _ Hm') as (Hdm & Hnm & _).
  destruct (pad_digits (s `mod` 60) ltac:(lia)) as (Hdr & Hnr & _).
  destruct (decide (0 < s / 3600)) as [Hpos|Hpos]; unfold parseHMS.
  - rewrite decide_False by (by apply append_nonempty).
    change (pad (s / 3600) +:+ ":" +:+ pad (s `mod` 3600 / 60) +:+ ":"
              +:+ pad (s `mod` 60))
      with (pad (s / 3600) +:+ String colon
              (pad (s `mod` 3600 / 60) +:+ String colon (pad (s `mod` 60)))).
    rewrite !splitOn_digits_colon, splitOn_digits by done.
    cbn [fmap list_fmap]. rewrite !parseInt10_pad by lia. cbn.
    f_equal. clear. Z.div_mod_to_equations. lia.
  - rewrite decide_False by (by apply append_nonempty).
    change (pad (s `mod` 3600 / 60) +:+ ":" +:+ pad (s `mod` 60))
      with (pad (s `mod` 3600 / 60) +:+ String colon (pad (s `mod` 60))).
    rewrite !splitOn_digits_colon, splitOn_digits by done.
    cbn [fmap list_fmap]. rewrite !parseInt10_pad by lia. cbn.
    assert (s / 3600 = 0) as Hzero by lia.
    f_equal. clear -Hzero. Z.div_mod_to_equations. lia.
Qed.

Lemma parseHMS_secToHMS_witness :
  parseHMS (secToHMS 3725) = Z.max 0 3725
  /\ secToHMS 3725 = "01:02:05"
  /\ parseHMS (secToHMS (-7)) = Z.max 0 (-7).
Proof.
  split; [|split].
  - apply (parseHMS_secToHMS 3725). split; reflexivity.
  - reflexivity.
  - apply (parseHMS_secToHMS (-7)). split; reflexivity.
Defined.

(** ** CSV fields and lines *)

Lemma plain_field_prefix s1 s2 t1 t2 :
  existsb (fun c => bool_decide (c = dquote \/ c = comma \/ c = newline))
    (String.list_ascii_of_string s1) = false ->
  existsb (fun c => bool_decide (c = dquote \/ c = comma \/ c = newline))
    (String.list_ascii_of_string s2) = false ->
  afterField t1 -> afterField t2 ->
  s1 +:+ t1 = s2 +:+ t2 -> s1 = s2 /\ t1 = t2.
Proof.
  revert s2. induction s1 as [|c1 s1 IH]; intros [|c2 s2]; simpl.
  - done.
  - intros _ [Hc2 _]%orb_false_iff [->|[r ->]] _ [=]. subst c2.
    apply bool_decide_eq_false in Hc2. tauto.
  - intros [Hc1 _]%orb_false_iff _ _ [->|[r ->]] [=]. subst c1.
    apply bool_decide_eq_false in Hc1. tauto.
  - intros [_ H1]%orb_false_iff [_ H2]%orb_false_iff Ht1 Ht2 [= -> Heq].
    destruct (IH s2 H1 H2 Ht1 Ht2 Heq) as [-> ->]. done.
Qed.

Lemma quoted_field_prefix s1 s2 t1 t2 :
  afterField t1 -> afterField t2 ->
  doubleQuotes s1 +:+ String dquote t1 = doubleQuotes s2 +:+ String dquote t2 ->
  s1 = s2 /\ t1 = t2.
Proof.
  intros Ht1 Ht2. revert s2.
  induction s1 as [|c1 s1 IH]; intros [|c2 s2]; simpl.
  - by intros [= ->].
  - destruct (decide (c2 = dquote)) as [->|Hne]; simpl.
    + intros [= ->]. destruct Ht1 as [?|[r ?]]; done.
    + intros [= ?]. done.
  - destruct (decide (c1 = dquote)) as [->|Hne]; simpl.
    + intros [= <-]. destruct Ht2 as [?|[r ?]]; done.
    + intros [= ?]. done.
  - destruct (decide (c1 = dquote)) as [->|Hne1];
      destruct (decide (c2 = dquote)) as [->|Hne2]; simpl.
    + intros [= Heq]. by destruct (IH _ Heq) as [-> ->].
    + intros [= ? _]. done.
    + intros [= ? _]. done.
    + intros [= -> Heq]. by destruct (IH _ Heq) as [-> ->].
Qed.

Lemma escaped_field_prefix s1 s2 t1 t2 :
  afterField t1 -> afterField t2 ->
  csvEscape s1 +:+ t1 = csvEscape s2 +:+ t2 -> s1 = s2 /\ t1 = t2.
Proof.
  intros Ht1 Ht2. unfold csvEscape, str.
  destruct (existsb _ (String.list_ascii_of_string s1)) eqn:H1;
    destruct (existsb _ (String.list_ascii_of_string s2)) eqn:H2.
  - norm_app. intros [= Heq]. by apply quoted_field_prefix.
  - norm_app. destruct s2 as [|c2 s2]; norm_app.
    + intros <-. destruct Ht2 as [?|[r ?]]; done.
    + intros [= <- _]. by simpl in H2.
  - norm_app. destruct s1 as [|c1 s1]; norm_app.
    + intros ->. destruct Ht1 as [?|[r ?]]; done.
    + intros [= -> _]. by simpl in H1.
  - by apply plain_field_prefix.
Qed.

Lemma csvLine_cons f fs :
  csvLine (f :: fs) =
    f +:+ match fs with [] => EmptyString | _ :: _ => String comma (csvLine fs) end.
Proof.
  unfold csvLine, str. destruct fs as [|g fs]; simpl; [|done].
  by rewrite string_app_empty_r.
Qed.

(** X13: a CSV line keeps its fields apart. Two lists of fields of the
    same length that [csvEscape] and the comma join turn into the same
    line are the same list, whatever commas, quotes or line feeds the
    fields hold; in particular [csvEscape] never maps two texts to one. *)
Theorem csv_line_fields_recoverable (fs gs : list string) :
  length fs = length gs ->
  csvLine (csvEscape <$> fs) = csvLine (csvEscape <$> gs) ->
  fs = gs.
Proof.
  revert gs. induction fs as [|f fs IH]; intros [|g gs]; simpl; try done.
  intros [= Hlen]. rewrite !csvLine_cons.
  destruct fs as [|f' fs], gs as [|g' gs]; try done.
  - cbn [fmap list_fmap]. intros Heq.
    destruct (escaped_field_prefix f g EmptyString EmptyString) as [-> _];
      [by left|by left|done|done].
  - intros Heq.
    destruct (escaped_field_prefix f g _ _ ltac:(right; eauto)
                ltac:(right; eauto) Heq) as [-> [= Htail]].
    f_equal. by apply IH.
Qed.

Lemma csv_line_fields_recoverable_witness :
  let q := str dquote in
  length ["a,b"; "c"] = length ["a"; "b,c"]
  /\ csvLine (csvEscape <$> ["a,b"; "c"]) = q +:+ "a,b" +:+ q +:+ ",c"
  /\ (csvLine (csvEscape <$> ["a,b"; "c"]) = csvLine (csvEscape <$> ["a"; "b,c"])
      -> ["a,b"; "c"] = ["a"; "b,c"]).
Proof.
  split; [reflexivity|]. split; [reflexivity|].
  apply (csv_line_fields_recoverable ["a,b"; "c"] ["a"; "b,c"]). reflexivity.
Defined.

(** ** Rows of the detail export *)

Section DetailRows.
Context (absToHMS : Z -> string).

(** X14: when no window holds a pending entry the detail export is the
    header followed, window by window, by one row per moving or staying
    entry in entry order; the row of the [k]-th such entry of a window
    carries the number [k], counted from 1 in every window, and holes
    give no row. *)
Theorem detail_export_rows (st : State) :
  (forall w, w ∈ windows st -> Pending ∉ entries w) ->
  exportDetailCSV absToHMS st =
    [UiDownload (fileStem st +:+ "_detail.csv")
       (blobText
          (detailHeader ::
           concat ((fun w => imap (fun k e => detailRow absToHMS st w (S k) e)
                               (filter classified (entries w)))
                     <$> windows st)))]
  /\ forall w, w ∈ windows st ->
       length (filter classified (entries w)) =
         (countKind Moving (entries w) + countKind Staying (entries w))%nat.
Proof.
  intros Hclean. split.
  - unfold exportDetailCSV. by rewrite detailRows_rows.
  - intros w _. unfold countKind, classified.
    induction (entries w) as [|e es IH]; [done|].
    rewrite !filter_cons.
    destruct e; simpl;
      repeat (first [rewrite decide_True by (auto; done)
                    |rewrite decide_False by (intros [?|?]; done)
                    |rewrite decide_False by done]); simpl; lia.
Qed.

End DetailRows.

Lemma detail_export_rows_witness :
  exportDetailCSV (fun _ => EmptyString)
    (mkState "cam" 300
       [mkWindow 0 300 [Moving; Hole; Staying] EmptyString [];
        mkWindow 300 600 [Staying] EmptyString []] 0%nat None None)
  = [UiDownload "cam_detail.csv"
       (blobText
          [csvLine ["video_id"; "window_start"; "person_local_id"; "visible_sec";
                    "behavior"; "remarks"];
           "cam,00:00,p001,,moving,";
           "cam,00:00,p002,,staying,";
           "cam,05:00,p001,,staying,"])].
Proof.
  refine (eq_trans
            (proj1 (detail_export_rows (fun _ => EmptyString)
                      (mkState "cam" 300
                         [mkWindow 0 300 [Moving; Hole; Staying] EmptyString [];
                          mkWindow 300 600 [Staying] EmptyString []]
                         0%nat None None) _)) _).
  - intros w Hw. simpl in Hw. rewrite !elem_of_cons, elem_of_nil in Hw.
    destruct Hw as [-> | [-> | []]]; simpl; rewrite !elem_of_cons, elem_of_nil;
      intuition discriminate.
  - vm_compute. reflexivity.
Defined.

(** ** Saving and loading *)

Lemma storageKey_inj st1 st2 :
  storageKey st1 = storageKey st2 -> videoId st1 = videoId st2.
Proof. unfold storageKey. by intros ?%(inj (String.app _)). Qed.

Section PersistenceFacts.
Context (stringify : Snapshot -> string) (parseJSON : string -> option Data).

(** X15: a session saved to local storage and loaded back under the same
    video id comes back with its video id, windows and origin; the window
    length comes back unless it was 0, the current index is brought into
    range, and the coverage is whatever the loading session holds, since it
    is not saved. Loading into the session that was saved gives that
    session, up to the index. *)
Theorem save_then_load (st st' : State) (store : gmap.gmap string string) :
  videoId st <> EmptyString ->
  videoId st' = videoId st ->
  stringify (snapshotOf st) <> EmptyString ->
  parseJSON (stringify (snapshotOf st)) = Some (dataOf (snapshotOf st)) ->
  loadFromLocalStorage parseJSON st' (saveToLocalStorage stringify st store) =
    (renderActive
       (mkState (videoId st)
          (if decide (windowSeconds st = 0) then windowSeconds st'
           else windowSeconds st)
          (windows st) (currentIndex st) (absOrigin st) (coverage st')),
     true)
  /\ loadFromLocalStorage parseJSON st (saveToLocalStorage stringify st store) =
       (renderActive st, true).
Proof.
  intros Hvid Hsame Hraw Hparse.
  assert (forall s, videoId s = videoId st ->
            loadFromLocalStorage parseJSON s (saveToLocalStorage stringify st store) =
              (renderActive
                 (mkState (videoId st)
                    (if decide (windowSeconds st = 0) then windowSeconds s
                     else windowSeconds st)
                    (windows st) (currentIndex st) (absOrigin st) (coverage s)),
               true)) as Hload.
  { intros s Hs. unfold loadFromLocalStorage, saveToLocalStorage.
    rewrite !decide_False by congruence.
    assert (storageKey s = storageKey st) as -> by (unfold storageKey; congruence).
    rewrite fin_maps.lookup_insert_eq. rewrite decide_False by done. rewrite Hparse. simpl.
    by rewrite decide_False by done. }
  split; [by apply Hload|].
  rewrite Hload by done. do 2 f_equal.
  destruct st as [v secs ws i o c]; simpl. by destruct (decide (secs = 0)) as [->|].
Qed.

(** X16: what loading refuses and what saving leaves alone. Loading gives
    [false] and the unchanged state when the video id is empty, when
    nothing is stored under the key of the video id, or when the stored
    text does not parse; saving with an empty video id stores nothing,
    and saving one session does not change what loading finds for a
    session with another video id. *)
Theorem load_failures_and_isolation (st other : State) (store : gmap.gmap string string) :
  (videoId st = EmptyString ->
     loadFromLocalStorage parseJSON st store = (st, false)
     /\ saveToLocalStorage stringify st store = store)
  /\ (store !! storageKey st = None ->
        loadFromLocalStorage parseJSON st store = (st, false))
  /\ (forall raw, store !! storageKey st = Some raw -> parseJSON raw = None ->
        loadFromLocalStorage parseJSON st store = (st, false))
  /\ (videoId other <> videoId st ->
        loadFromLocalStorage parseJSON other (saveToLocalStorage stringify st store)
        = loadFromLocalStorage parseJSON other store).
Proof.
  unfold loadFromLocalStorage, saveToLocalStorage.
  split; [|split; [|split]].
  - intros Hv. by rewrite !decide_True.
  - intros ->. by destruct (decide _).
  - intros raw -> ->. destruct (decide _); [done|]. by destruct (decide _).
  - intros Hne. destruct (decide (videoId st = EmptyString)); [done|].
    destruct (decide (videoId other = EmptyString)); [done|].
    rewrite fin_maps.lookup_insert_ne; [done|].
    intros Hk%storageKey_inj. congruence.
Qed.

(** X17: importing a JSON text. A text that does not parse, or whose
    [windows] is no array, is refused and the state stays as it was.
    Otherwise the video id (even an empty one), the windows, the index and
    the origin are taken from the text, a missing or zero window length
    becomes 300, the coverage is kept, and with windows present the
    current index ends on an existing window. *)
Theorem importJson_adopts (text : string) (st : State) :
  ((parseJSON text = None \/ exists d, parseJSON text = Some d /\ dWindows d = None) ->
     importJson parseJSON text st = (st, false))
  /\ (forall d ws, parseJSON text = Some d -> dWindows d = Some ws ->
        let st' := (importJson parseJSON text st).1 in
        (importJson parseJSON text st).2 = true
        /\ videoId st' = dVideoId d
        /\ windows st' = ws
        /\ absOrigin st' = dAbsOrigin d
        /\ coverage st' = coverage st
        /\ windowSeconds st' =
             (if decide (dWindowSeconds d = 0) then 300 else dWindowSeconds d)
        /\ (ws <> [] -> is_Some (ws !! currentIndex st'))
        /\ ((dCurrentIndex d < length ws)%nat -> currentIndex st' = dCurrentIndex d)).
Proof.
  unfold importJson. split.
  - intros [->|(d & -> & ->)]; done.
  - intros d ws -> ->. unfold renderActive. simpl.
    destruct (decide (ws = [])) as [->|Hne]; simpl.
    + do 6 (split; [done|]). split; [done|]. simpl. lia.
    + assert (0 < length ws)%nat by (destruct ws; [done|simpl; lia]).
      do 6 (split; [done|]). split.
      * intros _. apply lookup_lt_is_Some. lia.
      * intros Hlt. lia.
Qed.

End PersistenceFacts.

Lemma save_then_load_witness :
  let st := mkState "cam" 300 [mkWindow 0 300 [Moving] EmptyString [OpAdd]] 4%nat
              (Some 1704099600) (Some [mkCov 1704099600 1704103200]) in
  loadFromLocalStorage (fun _ => Some (dataOf (snapshotOf st))) st
    (saveToLocalStorage (fun _ => "{}") st ∅)
  = (mkState "cam" 300 [mkWindow 0 300 [Moving] EmptyString [OpAdd]] 0%nat
       (Some 1704099600) (Some [mkCov 1704099600 1704103200]), true).
Proof.
  refine (eq_trans
            (proj2 (save_then_load (fun _ => "{}")
                      (fun _ => Some (dataOf (snapshotOf
                         (mkState "cam" 300
                            [mkWindow 0 300 [Moving] EmptyString [OpAdd]] 4%nat
                            (Some 1704099600) (Some [mkCov 1704099600 1704103200])))))
                      (mkState "cam" 300
                         [mkWindow 0 300 [Moving] EmptyString [OpAdd]] 4%nat
                         (Some 1704099600) (Some [mkCov 1704099600 1704103200]))
                      (mkState "cam" 300
                         [mkWindow 0 300 [Moving] EmptyString [OpAdd]] 4%nat
                         (Some 1704099600) (Some [mkCov 1704099600 1704103200]))
                      ∅ _ _ _ _)) _);
    [discriminate|reflexivity|discriminate|reflexivity|reflexivity].
Defined.

Lemma load_failures_and_isolation_witness :
  let st := mkState "cam" 300 [] 0%nat None None in
  loadFromLocalStorage (fun _ => None) st ∅ = (st, false).
Proof.
  apply (proj1 (proj2 (load_failures_and_isolation (fun _ => "{}") (fun _ => None)
                         (mkState "cam" 300 [] 0%nat None None)
                         (mkState "cam" 300 [] 0%nat None None) ∅))).
  reflexivity.
Defined.

Lemma importJson_adopts_witness :
  let d := mkData EmptyString 0 (Some [freshWindow 0 300; freshWindow 300 600]) 9%nat
             None in
  let st := mkState "old" 60 [] 0%nat (Some 5) (Some [mkCov 0 10]) in
  (importJson (fun _ => Some d) "{}" st).1
  = mkState EmptyString 300 [freshWindow 0 300; freshWindow 300 600] 1%nat None
      (Some [mkCov 0 10])
  /\ (importJson (fun _ => Some d) "{}" st).2 = true.
Proof.
  split; [reflexivity|].
  apply (proj2 (importJson_adopts
                  (fun _ => Some (mkData EmptyString 0
                                    (Some [freshWindow 0 300; freshWindow 300 600])
                                    9%nat None))
                  "{}" (mkState "old" 60 [] 0%nat (Some 5) (Some [mkCov 0 10])))
           (mkData EmptyString 0 (Some [freshWindow 0 300; freshWindow 300 600])
              9%nat None)
           [freshWindow 0 300; freshWindow 300 600] eq_refl eq_refl).
Defined.
